(** * Interview-Agent (src/agent.js): model-orchestration and scoring core

    Shallow embedding of the server functions of [src/agent.js]:
    JSON extraction ([cleanJSON], both copies), [clampInt], the assessor
    normalizer, the weighted score, [compareMulti], the retry loop of
    [callChatJSON], and the session registry driven by the HTTP handlers. *)

From Stdlib Require Import QArith Qround ZArith String Ascii List Lia Bool.
From Stdlib Require Import Sorting.Permutation Sorting.Sorted Lqa Qpower.
From stdpp Require Import gmap strings.

Import ListNotations.
Open Scope string_scope.

(** stdpp makes [String.append] opaque to [simpl]; the proofs below compute
    with it. *)
Arguments String.append : simpl nomatch.

(* ================================================================== *)
(** ** JS strings *)
(* ================================================================== *)

(** A JS string is read as its sequence of code units; code units below
    256 are the ASCII/Latin-1 characters of [ascii]. *)

(** Whitespace of [\s] and of [String.prototype.trim] among code units
    below 256: TAB, LF, VT, FF, CR, SPACE and NBSP. *)
Definition is_ws (c : ascii) : bool :=
  let n := nat_of_ascii c in
  (n =? 9)%nat || (n =? 10)%nat || (n =? 11)%nat || (n =? 12)%nat
  || (n =? 13)%nat || (n =? 32)%nat || (n =? 160)%nat.

Definition backtick : ascii := "`"%char.
Definition lbrace : ascii := "{"%char.
Definition rbrace : ascii := "}"%char.

Fixpoint trim_start (s : string) : string :=
  match s with
  | EmptyString => EmptyString
  | String c s' => if is_ws c then trim_start s' else s
  end.

Fixpoint trim_end (s : string) : string :=
  match s with
  | EmptyString => EmptyString
  | String c s' =>
      let r := trim_end s' in
      match r with
      | EmptyString => if is_ws c then EmptyString else String c EmptyString
      | _ => String c r
      end
  end.

(** [s.trim()] *)
Definition js_trim (s : string) : string := trim_end (trim_start s).

(** Maximal run of leading backticks: its length and the rest. *)
Fixpoint backtick_run (s : string) : nat * string :=
  match s with
  | String c s' =>
      if Ascii.eqb c backtick then
        let (k, r) := backtick_run s' in (S k, r)
      else (0%nat, s)
  | EmptyString => (0%nat, EmptyString)
  end.

Fixpoint drop_n (n : nat) (s : string) : string :=
  match n, s with
  | S n', String _ s' => drop_n n' s'
  | _, _ => s
  end.

(** ASCII lower-casing, as [toLowerCase] and the [i] flag treat it. *)
Definition lower (c : ascii) : ascii :=
  let n := nat_of_ascii c in
  if ((65 <=? n) && (n <=? 90))%nat then ascii_of_nat (n + 32) else c.

Fixpoint js_toLowerCase (s : string) : string :=
  match s with
  | EmptyString => EmptyString
  | String c s' => String (lower c) (js_toLowerCase s')
  end.

(** [s] starts with [p], compared case-insensitively ([p] lower-case). *)
Fixpoint starts_with_ci (p s : string) : bool :=
  match p, s with
  | EmptyString, _ => true
  | String a p', String b s' => Ascii.eqb a (lower b) && starts_with_ci p' s'
  | String _ _, EmptyString => false
  end.

Fixpoint all_ws (s : string) : bool :=
  match s with
  | EmptyString => true
  | String c s' => is_ws c && all_ws s'
  end.

(** [t.replace(/^\s*`{1,3}\s*json\s*/i, "")].  Backtracking forces the
    backtick group to take the whole run (the next token is [\s] or
    [json]) and every [\s*] to be maximal. *)
Definition strip_fence_json (t : string) : string :=
  let s1 := trim_start t in
  let (k, s2) := backtick_run s1 in
  if ((1 <=? k) && (k <=? 3))%nat then
    let s3 := trim_start s2 in
    if starts_with_ci "json" s3 then trim_start (drop_n 4 s3) else t
  else t.

(** [t.replace(/^\s*`{1,3}\s*/i, "")]: the greedy group takes at most
    three backticks, then the maximal [\s*] (empty if a fourth backtick
    follows). *)
Definition strip_fence_open (t : string) : string :=
  let s1 := trim_start t in
  let (k, _) := backtick_run s1 in
  if (1 <=? k)%nat then trim_start (drop_n (Nat.min k 3) s1) else t.

(** Membership of a whole string in [\s*`{1,3}\s*]. *)
Definition fence_tail (s : string) : bool :=
  let (k, r) := backtick_run (trim_start s) in
  ((1 <=? k) && (k <=? 3))%nat && all_ws r.

(** [t.replace(/\s*`{1,3}\s*$/i, "")]: the leftmost position from which
    the rest of the string matches is cut off. *)
Fixpoint strip_fence_close (t : string) : string :=
  if fence_tail t then EmptyString
  else match t with
       | EmptyString => EmptyString
       | String c t' => String c (strip_fence_close t')
       end.

(** [s.indexOf(c)] and [s.lastIndexOf(c)] for a one-character needle. *)
Fixpoint index_of (c : ascii) (s : string) : Z :=
  match s with
  | EmptyString => (-1)%Z
  | String d s' =>
      if Ascii.eqb c d then 0%Z
      else let i := index_of c s' in if (i =? -1)%Z then (-1)%Z else (i + 1)%Z
  end.

Fixpoint last_index_of (c : ascii) (s : string) : Z :=
  match s with
  | EmptyString => (-1)%Z
  | String d s' =>
      let i := last_index_of c s' in
      if (i =? -1)%Z then (if Ascii.eqb c d then 0%Z else (-1)%Z) else (i + 1)%Z
  end.

(** [s.slice(a, b)] for [0 <= a, b]: empty when [b <= a]. *)
Definition js_slice (s : string) (a b : Z) : string :=
  substring (Z.to_nat a) (Z.to_nat b - Z.to_nat a) s.

(** The fence-stripping prefix shared by both [cleanJSON] copies
    ([text] is a string; [text || ""] is the identity on it). *)
Definition strip_fences (text : string) : string :=
  strip_fence_close (strip_fence_open (strip_fence_json (js_trim text))).

(** [cleanJSON] of the server (agent.js lines 114-123). *)
Definition cleanJSON (text : string) : string :=
  let t := strip_fences text in
  let a := index_of lbrace t in
  let b := last_index_of rbrace t in
  let t := if (negb (a =? -1)%Z && negb (b =? -1)%Z && (a <? b)%Z)
           then js_slice t a (b + 1) else t in
  js_trim t.

(** [cleanJSON] of the assessment module appended to agent.js
    (lines 1110-1119): it slices whenever both braces occur. *)
Definition cleanJSON_assessment (text : string) : string :=
  let t := strip_fences text in
  let a := index_of lbrace t in
  let b := last_index_of rbrace t in
  let t := if (negb (a =? -1)%Z && negb (b =? -1)%Z)
           then js_slice t a (b + 1) else t in
  js_trim t.

(* ================================================================== *)
(** ** Results of JS code that may throw *)
(* ================================================================== *)

Inductive js_result (A : Type) : Type :=
| Ok (a : A)
| Throw (msg : string).
Arguments Ok {A} a.
Arguments Throw {A} msg.

Definition bindR {A B : Type} (m : js_result A) (f : A -> js_result B) : js_result B :=
  match m with Ok a => f a | Throw e => Throw e end.

Notation "'let!' x ':=' m 'in' k" := (bindR m (fun x => k))
  (at level 200, x name, m at level 100, k at level 200).

Fixpoint mapR {A B : Type} (f : A -> js_result B) (l : list A) : js_result (list B) :=
  match l with
  | [] => Ok []
  | x :: xs => let! y := f x in let! ys := mapR f xs in Ok (y :: ys)
  end.

Definition type_error : string := "TypeError".

(* ================================================================== *)
(** ** JS numbers and JSON values *)
(* ================================================================== *)

(** A JS number: a finite double (its exact rational value), an
    infinity, NaN.  Arithmetic on doubles rounds through [fl] below.
    [JSON.parse] yields finite numbers and, for literals such as [1e400],
    infinities. *)
Inductive jsnum : Type :=
| NFin (q : Q)
| NInf (neg : bool)
| NNaN.

Local Set Warnings "-register-all".

(** The values [JSON.parse] returns, plus [undefined] (a missing
    property).  Object fields in source order; a later duplicate key
    wins, as in [JSON.parse]. *)
Inductive jsval : Type :=
| JUndef
| JNull
| JBool (b : bool)
| JNum (n : jsnum)
| JStr (s : string)
| JArr (l : list jsval)
| JObj (fields : list (string * jsval)).

Definition lookup_field (k : string) (fs : list (string * jsval)) : option jsval :=
  match find (fun kv => String.eqb (fst kv) k) (rev fs) with
  | Some (_, v) => Some v
  | None => None
  end.

(** [v.k] for the non-inherited keys this code reads: [null.k] and
    [undefined.k] throw; primitives and arrays have no such key. *)
Definition get_prop (v : jsval) (k : string) : js_result jsval :=
  match v with
  | JUndef | JNull => Throw type_error
  | JObj fs => Ok (match lookup_field k fs with Some x => x | None => JUndef end)
  | _ => Ok JUndef
  end.

Definition truthy (v : jsval) : bool :=
  match v with
  | JUndef | JNull => false
  | JBool b => b
  | JNum (NFin q) => negb (Qeq_bool q 0)
  | JNum (NInf _) => true
  | JNum NNaN => false
  | JStr s => negb (String.eqb s "")
  | JArr _ | JObj _ => true
  end.

(** [a || b] and [a ?? b]. *)
Definition js_or (a b : jsval) : jsval := if truthy a then a else b.
Definition js_nullish (a b : jsval) : jsval :=
  match a with JUndef | JNull => b | _ => a end.

(** [Array.isArray(v) ? v.slice(0, n) : []] *)
Definition array_prefix (n : nat) (v : jsval) : list jsval :=
  match v with JArr l => firstn n l | _ => [] end.

(** Largest magnitude that still rounds to a finite double:
    values from [2^1024 - 2^970] on become an infinity. *)
Definition double_overflow : Z := (2 ^ 1024 - 2 ^ 970)%Z.

Definition is_digit (c : ascii) : bool :=
  ((48 <=? nat_of_ascii c) && (nat_of_ascii c <=? 57))%nat.

(** The maximal run of decimal digits: its value and length. *)
Fixpoint read_digits (s : string) (acc : Z) (n : nat) : Z * nat :=
  match s with
  | String c s' =>
      if is_digit c
      then read_digits s' (acc * 10 + Z.of_nat (nat_of_ascii c - 48))%Z (S n)
      else (acc, n)
  | EmptyString => (acc, n)
  end.

(** [parseInt(s, 10)] on a string: leading whitespace, a sign, the
    longest run of decimal digits; NaN when there is no digit. *)
Definition js_parseInt10 (s : string) : jsnum :=
  let s1 := trim_start s in
  let '(neg, s2) :=
    match s1 with
    | String c r =>
        if Ascii.eqb c "-"%char then (true, r)
        else if Ascii.eqb c "+"%char then (false, r) else (false, s1)
    | EmptyString => (false, EmptyString)
    end in
  let '(v, n) := read_digits s2 0%Z 0%nat in
  if (n =? 0)%nat then NNaN
  else if (double_overflow <=? v)%Z then NInf neg
  else NFin (inject_Z (if neg then - v else v)%Z).

(** [Math.round]: the nearest integer, halves toward +infinity. *)
Definition js_round (q : Q) : Z := Qfloor (q + (1 # 2)).

(** [clampInt] (agent.js lines 101-105) on a finite number [n]. *)
Definition clampInt_num (q : Q) (min max : Z) : Z :=
  Z.max min (Z.min max (js_round q)).

(** *** Binary64 arithmetic

    JS numbers are IEEE binary64 doubles.  [fl q] is the double nearest
    to the rational [q] (ties to an even significand), or an infinity
    when [q] rounds beyond the largest finite double.  Zeros carry no
    sign: the code below divides only by array lengths, by 8 and by a
    positive total weight, so a zero divisor is always [+0]. *)

(** The nearest integer, ties to the even one. *)
Definition round_ne (x : Q) : Z :=
  let f := Qfloor x in
  match Qcompare (x - inject_Z f) (1 # 2) with
  | Lt => f
  | Gt => (f + 1)%Z
  | Eq => if Z.even f then f else (f + 1)%Z
  end.

(** [floor(log2 a)] for [a > 0]. *)
Definition floor_log2 (a : Q) : Z :=
  let e0 := (Z.log2 (Qnum a) - Z.log2 (Zpos (Qden a)))%Z in
  if Qle_bool (2 ^ e0) a then e0 else (e0 - 1)%Z.

(** Rounding of a positive rational: 53 significant bits, so the
    quantum is [2^(floor_log2 a - 52)], at least [2^-1074] (subnormals);
    a result from [2^1024] on overflows. *)
Definition fl_exp (a : Q) : Z := Z.max (floor_log2 a - 52) (-1074).

Definition fl_val (a : Q) : Q := (inject_Z (round_ne (a / 2 ^ fl_exp a)) * 2 ^ fl_exp a)%Q.

Definition fl_pos (a : Q) : jsnum :=
  if Qle_bool (2 ^ 1024) (fl_val a) then NInf false else NFin (fl_val a).

Definition dneg (a : jsnum) : jsnum :=
  match a with
  | NFin q => NFin (- q)
  | NInf b => NInf (negb b)
  | NNaN => NNaN
  end.

Definition fl (q : Q) : jsnum :=
  match Qcompare q 0 with
  | Eq => NFin 0
  | Gt => fl_pos q
  | Lt => dneg (fl_pos (- q))
  end.

(** [q] is a double: it rounds to itself. *)
Definition is_double (q : Q) : bool :=
  match fl q with NFin r => Qeq_bool r q | _ => false end.

(** The order of numbers other than NaN. *)
Definition jle (a b : jsnum) : Prop :=
  match a, b with
  | NInf true, _ => True
  | _, NInf false => True
  | NFin x, NFin y => (x <= y)%Q
  | _, _ => False
  end.

(** [a + b], [a - b], [a * b] and [a / b] on doubles. *)
Definition dadd (a b : jsnum) : jsnum :=
  match a, b with
  | NNaN, _ | _, NNaN => NNaN
  | NInf x, NInf y => if Bool.eqb x y then NInf x else NNaN
  | NInf x, NFin _ | NFin _, NInf x => NInf x
  | NFin p, NFin q => fl (p + q)
  end.

Definition dsub (a b : jsnum) : jsnum := dadd a (dneg b).

Definition dmul (a b : jsnum) : jsnum :=
  match a, b with
  | NNaN, _ | _, NNaN => NNaN
  | NInf x, NInf y => NInf (xorb x y)
  | NInf x, NFin q | NFin q, NInf x =>
      match Qcompare q 0 with
      | Eq => NNaN
      | Lt => NInf (negb x)
      | Gt => NInf x
      end
  | NFin p, NFin q => fl (p * q)
  end.

Definition ddiv (a b : jsnum) : jsnum :=
  match a, b with
  | NNaN, _ | _, NNaN => NNaN
  | NInf _, NInf _ => NNaN
  | NInf x, NFin q => match Qcompare q 0 with Lt => NInf (negb x) | _ => NInf x end
  | NFin _, NInf _ => NFin 0
  | NFin p, NFin q =>
      match Qcompare q 0 with
      | Eq => match Qcompare p 0 with Eq => NNaN | Lt => NInf true | Gt => NInf false end
      | _ => fl (p / q)
      end
  end.

(** [a <= 0] on a number (false for NaN). *)
Definition js_le_0 (a : jsnum) : bool :=
  match a with
  | NFin q => Qle_bool q 0
  | NInf b => b
  | NNaN => false
  end.

(** [Math.round] on a number. *)
Definition math_round (n : jsnum) : jsnum :=
  match n with
  | NFin q => NFin (inject_Z (js_round q))
  | _ => n
  end.

(** The double literals [0.7] and [0.3]: [fl (7/10)] and [fl (3/10)]. *)
Definition d0_7 : Q := 3152519739159347 # 4503599627370496.
Definition d0_3 : Q := 5404319552844595 # 18014398509481984.


Section JSConversions.

(** [Number::toString] on finite numbers: the conversions below are
    stated for any such printer. *)
Variable num_to_string : Q -> string.

Definition has_key (k : string) (fs : list (string * jsval)) : bool :=
  existsb (fun kv => String.eqb (fst kv) k) fs.

(** [String(v)].  A parsed object with its own [toString] key has no
    callable [toString] and its [valueOf] returns the object itself, so
    the conversion throws; arrays join their elements with commas. *)
Fixpoint js_ToString (v : jsval) : js_result string :=
  match v with
  | JUndef => Ok "undefined"
  | JNull => Ok "null"
  | JBool true => Ok "true"
  | JBool false => Ok "false"
  | JNum (NFin q) => Ok (num_to_string q)
  | JNum (NInf false) => Ok "Infinity"
  | JNum (NInf true) => Ok "-Infinity"
  | JNum NNaN => Ok "NaN"
  | JStr s => Ok s
  | JArr l =>
      let! parts :=
        (fix join (l : list jsval) : js_result (list string) :=
           match l with
           | [] => Ok []
           | x :: xs =>
               let! sx := match x with
                          | JUndef | JNull => Ok EmptyString
                          | _ => js_ToString x
                          end in
               let! r := join xs in Ok (sx :: r)
           end) l in
      Ok (String.concat "," parts)
  | JObj fs => if has_key "toString" fs then Throw type_error else Ok "[object Object]"
  end.

(** [clampInt(n, min, max)] (agent.js lines 101-105). *)
Definition clampInt (n : jsval) (min max : Z) : js_result Z :=
  match n with
  | JNum (NFin q) => Ok (clampInt_num q min max)
  | _ =>
      let! str := js_ToString n in
      match js_parseInt10 str with
      | NFin x => Ok (clampInt_num x min max)
      | _ => Ok min
      end
  end.

End JSConversions.

(* ================================================================== *)
(** ** Skills matrix, assessor results, scoring *)
(* ================================================================== *)

(** An entry of [matrix.skills]. *)
Record skill_def : Type := { name : string; weight : Q }.

Record matrix : Type := { role : string; skills : list skill_def }.

(** An entry of a normalized result's [skill_scores]. *)
Record skill_score : Type := {
  skill : string;
  score_1_to_9 : Z;
  confidence_low_med_high : jsval;
  assessor_stance : jsval;
  why_this_score : string;
  what_was_missing_for_next_level : string;
  evidence_bullets : list jsval;
  risks : list jsval;
  followups : list jsval
}.

(** The object [normalizeAssessorResult] returns. *)
Record assessment : Type := {
  recommendation : string;
  skill_scores : list skill_score;
  exercise_score_1_to_9 : Z;
  exercise_why_this_score : string;
  exercise_what_was_missing_for_next_level : string;
  exercise_evidence_bullets : list jsval;
  summary : list jsval
}.

(** [score1to9_to_0to100] (agent.js lines 195-198), on a number. *)
Definition score1to9_to_0to100 (score1to9 : Q) : Z :=
  let s := clampInt_num score1to9 1 9 in
  js_round ((inject_Z s - 1) / 8 * 100)%Q.

(** [wMap.get(k) ?? 0] with [wMap = new Map(skills.map(s => [s.name, s.weight]))]:
    the last entry of a repeated name wins. *)
Definition weight_of (skills : list skill_def) (k : string) : Q :=
  match find (fun d => String.eqb (name d) k) (rev skills) with
  | Some d => weight d
  | None => 0%Q
  end.

(** [score1to9_to_0to100] on any number: [clampInt] of NaN or of an
    infinity goes through [parseInt] of ["NaN"] or ["Infinity"], which is
    NaN, and returns its [min], 1. *)
Definition score1to9_to_0to100_num (n : jsnum) : Z :=
  match n with
  | NFin q => score1to9_to_0to100 q
  | _ => score1to9_to_0to100 1
  end.

(** [weightedSkillsScore0to100] (agent.js lines 200-214), on doubles.
    A weight is the matrix's number (a double); a score is the
    normalized integer. *)
Definition weightedSkillsScore0to100 (skillScores : list skill_score)
    (skills : list skill_def) : Z :=
  let acc :=
    fold_left (fun (acc : jsnum * jsnum) ss =>
                 let w := NFin (weight_of skills (skill ss)) in
                 (dadd (fst acc) w,
                  dadd (snd acc) (dmul w (NFin (inject_Z (score_1_to_9 ss))))))
              skillScores (NFin 0, NFin 0) in
  let totalW := fst acc in
  let weighted := snd acc in
  if js_le_0 totalW then 0%Z
  else score1to9_to_0to100_num (ddiv weighted totalW).

(** The overall score of [/api/finish] (lines 999-1002):
    [Math.round(0.7 * skills + 0.3 * score1to9_to_0to100(ex))]. *)
Definition overall (norm : assessment) (skills : list skill_def) : jsnum :=
  math_round
    (dadd (dmul (NFin d0_7) (NFin (inject_Z (weightedSkillsScore0to100 (skill_scores norm) skills))))
          (dmul (NFin d0_3)
                (NFin (inject_Z (score1to9_to_0to100 (inject_Z (exercise_score_1_to_9 norm))))))).

(* ================================================================== *)
(** ** Assessment normalizer *)
(* ================================================================== *)

Section Normalizer.

Variable num_to_string : Q -> string.

(** [String(v || "")] *)
Definition string_or_empty (v : jsval) : js_result string :=
  js_ToString num_to_string (js_or v (JStr "")).

(** The entry synthesized for a skill the assessor did not score. *)
Definition default_skill_score (name : string) (stanceLabel : jsval) : skill_score := {|
  skill := name;
  score_1_to_9 := 1;
  confidence_low_med_high := JStr "low";
  assessor_stance := stanceLabel;
  why_this_score := "Insufficient evidence in transcript/exercise.";
  what_was_missing_for_next_level :=
    "Provide a concrete example: tools used, steps taken, measurable outcome, validation, and failure handling.";
  evidence_bullets := [JStr "No evidence captured for this skill."];
  risks := [JStr "Evidence gap"; JStr "Unverified capability"];
  followups := [JStr "Give a specific example you personally delivered.";
                JStr "How did you validate and handle failures?"]
|}.

(** The entry built from an assessor's entry [x] for skill [name]. *)
Definition present_skill_score (name : string) (x : jsval) (stanceLabel : jsval)
    : js_result skill_score :=
  let! s1 := get_prop x "score_1_to_9" in
  let! sv := match s1 with JUndef | JNull => get_prop x "score" | _ => Ok s1 end in
  let! score := clampInt num_to_string sv 1 9 in
  let! conf := get_prop x "confidence_low_med_high" in
  let! st := get_prop x "assessor_stance" in
  let! why := get_prop x "why_this_score" in
  let! why_s := string_or_empty why in
  let! miss := get_prop x "what_was_missing_for_next_level" in
  let! miss_s := string_or_empty miss in
  let! ev := get_prop x "evidence_bullets" in
  let! rk := get_prop x "risks" in
  let! fu := get_prop x "followups" in
  Ok {|
    skill := name;
    score_1_to_9 := score;
    confidence_low_med_high := js_or conf (JStr "medium");
    assessor_stance := js_or st stanceLabel;
    why_this_score := why_s;
    what_was_missing_for_next_level := miss_s;
    evidence_bullets := array_prefix 3 ev;
    risks := array_prefix 2 rk;
    followups := array_prefix 2 fu
  |}.

(** [[String(x.skill || "").trim(), x]] *)
Definition keyed_entry (x : jsval) : js_result (string * jsval) :=
  let! sk := get_prop x "skill" in
  let! k := string_or_empty sk in
  Ok (js_trim k, x).

(** [map.get(k)] on [new Map(entries)]: the last entry with key [k]. *)
Definition map_get (entries : list (string * jsval)) (k : string) : option jsval :=
  match find (fun e => String.eqb (fst e) k) (rev entries) with
  | Some (_, x) => Some x
  | None => None
  end.

(** [normalizeAssessorResult(matrix, raw, stanceLabel)] (agent.js lines 389-435). *)
Definition normalizeAssessorResult (m : matrix) (raw : jsval) (stanceLabel : jsval)
    : js_result assessment :=
  let skillNames := map name (skills m) in
  let! ss := get_prop raw "skill_scores" in
  let incoming := match ss with JArr l => l | _ => [] end in
  let! entries := mapR keyed_entry incoming in
  let! skill_scores :=
    mapR (fun nm =>
            match map_get entries nm with
            | Some x => if truthy x then present_skill_score nm x stanceLabel
                        else Ok (default_skill_score nm stanceLabel)
            | None => Ok (default_skill_score nm stanceLabel)
            end) skillNames in
  let! rec := get_prop raw "recommendation" in
  let! rec_s := js_ToString num_to_string (js_or rec (JStr "Lean Hire")) in
  let! ex := get_prop raw "exercise_score_1_to_9" in
  let! ex_score := clampInt num_to_string ex 1 9 in
  let! ex_why := get_prop raw "exercise_why_this_score" in
  let! ex_why_s := string_or_empty ex_why in
  let! ex_miss := get_prop raw "exercise_what_was_missing_for_next_level" in
  let! ex_miss_s := string_or_empty ex_miss in
  let! ex_ev := get_prop raw "exercise_evidence_bullets" in
  let! summ := get_prop raw "summary" in
  Ok {|
    recommendation := rec_s;
    skill_scores := skill_scores;
    exercise_score_1_to_9 := ex_score;
    exercise_why_this_score := ex_why_s;
    exercise_what_was_missing_for_next_level := ex_miss_s;
    exercise_evidence_bullets := array_prefix 3 ex_ev;
    summary := array_prefix 6 summ
  |}.

End Normalizer.

(** [compareMulti(results)] (agent.js lines 216-230).  A result is
    modelled by its [norm] field, a normalized assessment. *)
(** [r.norm.skill_scores.map((s) => s.skill)] *)
Definition skill_names (a : assessment) : list string := map skill (skill_scores a).

Module CompareMulti.

(** [(r.norm.skill_scores || []).find((x) => x.skill === skill)],
    scoring 1 when no entry is found. *)
Definition found_score (sk : string) (a : assessment) : Z :=
  match find (fun x => String.eqb (skill x) sk) (skill_scores a) with
  | Some x => score_1_to_9 x
  | None => 1%Z
  end.

Record row := {
  skill : string;
  scores : list Z;
  min : Z;
  max : Z;
  spread : Z
}.

Record result := {
  rows : list row;
  biggest_disagreements : list row
}.

(** One row per skill; [r0] is [results[0]], so [scores] is never empty
    and [Math.min(...scores)] is a fold from its first element. *)
Definition mk_row (r0 : assessment) (rest : list assessment) (sk : string) : row :=
  let mn := fold_left Z.min (map (found_score sk) rest) (found_score sk r0) in
  let mx := fold_left Z.max (map (found_score sk) rest) (found_score sk r0) in
  {| skill := sk; scores := map (found_score sk) (r0 :: rest);
     min := mn; max := mx; spread := mx - mn |}.

(** [const rows = skills.map(...)]: with no results, [results[0]?.norm]
    is undefined and [skills] is []. *)
Definition build_rows (results : list assessment) : list row :=
  match results with
  | [] => []
  | r0 :: rest => map (mk_row r0 rest) (skill_names r0)
  end.

(** [rows.sort((a, b) => b.spread - a.spread)].  Array.prototype.sort is
    stable and this comparator is consistent, so its result is the stable
    sort by descending spread, computed here by insertion: an element is
    placed before the first one whose spread is not larger. *)
Fixpoint insert_row (x : row) (l : list row) : list row :=
  match l with
  | [] => [x]
  | y :: l' => if Z.leb (spread y) (spread x) then x :: l else y :: insert_row x l'
  end.

Fixpoint sort_rows (l : list row) : list row :=
  match l with
  | [] => []
  | x :: l' => insert_row x (sort_rows l')
  end.

Definition compareMulti (results : list assessment) : result :=
  let rows := sort_rows (build_rows results) in
  {| rows := rows; biggest_disagreements := firstn 5 rows |}.

(** The order the sort establishes: [a] may precede [b]. *)
Definition desc (a b : row) : Prop := (spread b <= spread a)%Z.

End CompareMulti.

(** [s.includes(sub)]. *)
Fixpoint js_includes (s sub : string) : bool :=
  String.prefix sub s ||
  match s with
  | EmptyString => false
  | String _ s' => js_includes s' sub
  end.

(** The classification in the [catch] of [callChatJSON]. *)
Definition is_transient (msg : string) : bool :=
  let is429 := js_includes msg "429" || js_includes (js_toLowerCase msg) "rate limit" in
  is429 ||
  js_includes (js_toLowerCase msg) "timeout" ||
  js_includes (js_toLowerCase msg) "temporarily" ||
  js_includes (js_toLowerCase msg) "fetch failed" ||
  js_includes (js_toLowerCase msg) "empty content".

(** The outcome of one [hf.chat.completions.create] call: the message
    content ([r?.choices?.[0]?.message?.content || ""], a missing content
    being "") or a rejection with its message. *)
Inductive chat_outcome : Type :=
| ChatOk (content : string)
| ChatErr (msg : string).

(** [callChatJSON] (agent.js lines 125-176).  A thrown error is modelled
    by its message [String(e?.message || e)], the text [new Error(msg)]
    carries. *)
Section CallChatJSON.

(** [JSON.parse], throwing a SyntaxError message on invalid text. *)
Variable json_parse : string -> js_result jsval.

(** The body of the [try] of one attempt: the chat call and, when the
    first parse fails, the single repair call at temperature 0. *)
Definition attempt_body (first repair : chat_outcome) : js_result jsval :=
  match first with
  | ChatErr m => Throw m
  | ChatOk last =>
      let cleaned := cleanJSON last in
      if String.eqb cleaned "" then Throw "Model returned empty content." else
      match json_parse cleaned with
      | Ok v => Ok v
      | Throw _ =>
          match repair with
          | ChatErr m => Throw m
          | ChatOk fixedText =>
              let fixedClean := cleanJSON fixedText in
              if String.eqb fixedClean "" then Throw "JSON-fix step returned empty content."
              else json_parse fixedClean
          end
      end
  end.

(** The responses the model gives at each attempt (first call, repair
    call); the repair response is used only when the first parse fails. *)
Variable env : nat -> chat_outcome * chat_outcome.

Definition run_attempt (attempt : nat) : js_result jsval :=
  attempt_body (fst (env attempt)) (snd (env attempt)).

(** The [for] loop from [attempt] on, with [fuel = maxAttempts - attempt + 1]
    iterations left; it returns the outcome and the delays slept. *)
Fixpoint retry_loop (fuel attempt maxAttempts : nat) (delay : Z) : js_result jsval * list Z :=
  match fuel with
  | O => (Throw "callChatJSON failed unexpectedly.", [])
  | S fuel' =>
      match run_attempt attempt with
      | Ok v => (Ok v, [])
      | Throw msg =>
          if Nat.eqb attempt maxAttempts || negb (is_transient msg) then (Throw msg, [])
          else
            let (r, sleeps) := retry_loop fuel' (S attempt) maxAttempts (Z.min (delay * 2) 5000) in
            (r, delay :: sleeps)
      end
  end.

Definition callChatJSON (maxAttempts : nat) : js_result jsval * list Z :=
  retry_loop maxAttempts 1 maxAttempts 450.

End CallChatJSON.

(** ** The interview flow and the session registry (agent.js lines 793-1085) *)

(** A transcript entry [{ skill, question, answer }]. *)
Record qa := {
  qa_skill : string;
  qa_question : string;
  qa_answer : string
}.

(** A session object of the [sessions] map.  The fields this flow never
    reads back ([matrix], [createdAt]) are left out; [planQuestions] are
    the plan items as the model returned them. *)
Record session := {
  candidateName : string;
  planQuestions : list jsval;
  idx : nat;
  transcript : list qa;
  followupsLeft : Z
}.

Definition set_transcript (s : session) (t : list qa) : session :=
  {| candidateName := candidateName s; planQuestions := planQuestions s; idx := idx s;
     transcript := t; followupsLeft := followupsLeft s |}.

Definition set_idx (s : session) (i : nat) : session :=
  {| candidateName := candidateName s; planQuestions := planQuestions s; idx := i;
     transcript := transcript s; followupsLeft := followupsLeft s |}.

Definition set_followupsLeft (s : session) (f : Z) : session :=
  {| candidateName := candidateName s; planQuestions := planQuestions s; idx := idx s;
     transcript := transcript s; followupsLeft := f |}.

(** A response: a JSON body with status 200, or an error status with the
    [error] message. *)
Inductive response : Type :=
| ROk (body : jsval)
| RErr (status : Z) (msg : string).

(** One request.  The model calls a request makes are given by their
    outcomes: the plan's [callChatJSON] result for [Start] (together with
    [loadMatrix]), the follow-up decision's [callChatJSON] result for
    [Answer], the respondent's text for the auto endpoints, and the whole
    assessment (three assessors, reports, file write) for [Finish]. *)
Inductive op : Type :=
| Start (sessionId candidateName : string) (plan : js_result jsval)
| Answer (sessionId answer : string) (decision : js_result jsval)
| AutoAnswer (sessionId : string) (reply : js_result string)
| AutoExercise (sessionId : string) (reply : js_result string)
| Finish (sessionId : string) (assessment : js_result unit).

Definition op_session (o : op) : string :=
  match o with
  | Start id _ _ | Answer id _ _ | AutoAnswer id _ | AutoExercise id _ | Finish id _ => id
  end.

Definition is_start (o : op) : bool :=
  match o with Start _ _ _ => true | _ => false end.

Section Flow.

(** [MAX_FOLLOWUPS_PER_SKILL], an integer setting. *)
Variable MAX_FOLLOWUPS_PER_SKILL : Z.
Variable num_to_string : Q -> string.

(** [buildInterviewPlan(matrix)] from the model's plan. *)
Definition buildInterviewPlan (plan : js_result jsval) : js_result (list jsval) :=
  let! p := plan in
  let! qs := get_prop p "questions" in
  match qs with
  | JArr (_ :: _ as l) => Ok l
  | _ => Throw "Interview plan missing questions."
  end.

(** [decideFollowup({ skillName, recentQA })] from the model's decision. *)
Definition decideFollowup (decision : js_result jsval) : js_result (bool * jsval) :=
  if Z.eqb MAX_FOLLOWUPS_PER_SKILL 0 then Ok (false, JNull) else
  let! d := decision in
  let! nf := get_prop d "need_followup" in
  let! fq := get_prop d "followup_question" in
  Ok (truthy nf, js_or fq JNull).

(** [q = s.planQuestions[s.idx]; String(q.skill || ""); String(q.question || "")]. *)
Definition current_question (s : session) : js_result (string * string) :=
  match nth_error (planQuestions s) (idx s) with
  | None => Throw type_error
  | Some q =>
      let! sk := get_prop q "skill" in
      let! skillName := js_ToString num_to_string (js_or sk (JStr "")) in
      let! qq := get_prop q "question" in
      let! question := js_ToString num_to_string (js_or qq (JStr "")) in
      Ok (skillName, question)
  end.

Definition advance (s : session) : session * js_result jsval :=
  let s' := set_followupsLeft (set_idx s (S (idx s))) MAX_FOLLOWUPS_PER_SKILL in
  match nth_error (planQuestions s') (idx s') with
  | None => (s', Ok (JObj [("done", JBool true)]))
  | Some nq => (s', Ok (JObj [("done", JBool false); ("next", nq)]))
  end.

(** The body of [/api/answer] once the session is found: the session
    object after the request (it is shared with the map, so every
    mutation made before a throw stays) and the response body or error. *)
Definition answer_step (s : session) (answer : string) (decision : js_result jsval)
    : session * js_result jsval :=
  match current_question s with
  | Throw m => (s, Throw m)
  | Ok (skillName, question) =>
      let s1 := set_transcript s (transcript s ++
                  [{| qa_skill := skillName; qa_question := question; qa_answer := answer |}]) in
      if Z.ltb 0 (followupsLeft s1) && negb (String.eqb (js_trim answer) "")
         && negb (String.eqb (js_trim answer) "[SKIPPED]") then
        match decideFollowup decision with
        | Throw m => (s1, Throw m)
        | Ok (need, fq) =>
            if need && truthy fq then
              (set_followupsLeft s1 (followupsLeft s1 - 1),
               Ok (JObj [("done", JBool false);
                         ("next", JObj [("skill", JStr skillName); ("question", fq)])]))
            else advance s1
        end
      else advance s1
  end.

Definition to_response (r : js_result jsval) : response :=
  match r with Ok b => ROk b | Throw m => RErr 500 m end.

(** The auto endpoints only read the session. *)
Definition auto_reply (reply : js_result string) : response :=
  match reply with
  | Ok a => if String.eqb a "" then RErr 500 "Model returned empty answer."
            else ROk (JObj [("answer", JStr a)])
  | Throw m => RErr 500 m
  end.

Definition exec (reg : gmap string session) (o : op) : gmap string session * response :=
  match o with
  | Start id name plan =>
      match buildInterviewPlan plan with
      | Throw m => (reg, RErr 500 m)
      | Ok qs =>
          (<[id := {| candidateName := name; planQuestions := qs; idx := 0;
                      transcript := []; followupsLeft := MAX_FOLLOWUPS_PER_SKILL |}]> reg,
           ROk (JObj [("sessionId", JStr id); ("next", hd JUndef qs)]))
      end
  | Answer id answer decision =>
      match reg !! id with
      | None => (reg, RErr 400 "Session not found. Start again.")
      | Some s =>
          let (s', r) := answer_step s answer decision in
          (<[id := s']> reg, to_response r)
      end
  | AutoAnswer id reply =>
      match reg !! id with
      | None => (reg, RErr 400 "Session not found.")
      | Some s =>
          match nth_error (planQuestions s) (idx s) with
          | None => (reg, RErr 400 "No current question.")
          | Some _ => (reg, auto_reply reply)
          end
      end
  | AutoExercise id reply =>
      match reg !! id with
      | None => (reg, RErr 400 "Session not found.")
      | Some _ => (reg, auto_reply reply)
      end
  | Finish id assessment =>
      match reg !! id with
      | None => (reg, RErr 400 "Session not found. Start again.")
      | Some _ =>
          match assessment with
          | Throw m => (reg, RErr 500 m)
          | Ok _ => (delete id reg, ROk (JObj []))
          end
      end
  end.

(** Requests handled one after the other (one request in flight per
    session, and the registry updates of different sessions commute). *)
Fixpoint run (reg : gmap string session) (ops : list op) : gmap string session * list response :=
  match ops with
  | [] => (reg, [])
  | o :: ops' =>
      let (reg1, r) := exec reg o in
      let (reg2, rs) := run reg1 ops' in
      (reg2, r :: rs)
  end.

End Flow.

(** The bounds C6 states for one session. *)
Definition session_ok (s : session) : Prop :=
  (0 <= followupsLeft s)%Z /\ (idx s <= List.length (planQuestions s))%nat.

(* ================================================================== *)
(** ** File names and coverage *)
(* ================================================================== *)

Definition underscore : ascii := "_"%char.

(** The characters of [\w] and [-]: [A-Za-z0-9_-]. *)
Definition is_word_or_hyphen (c : ascii) : bool :=
  let n := nat_of_ascii c in
  ((48 <=? n) && (n <=? 57))%nat || ((65 <=? n) && (n <=? 90))%nat ||
  ((97 <=? n) && (n <=? 122))%nat || (n =? 95)%nat || (n =? 45)%nat.

(** [s.replace(/[^\w\-]+/g, "_")]: each maximal run of other characters
    becomes one [_]; [in_run] tells that the previous character was
    already replaced. *)
Fixpoint replace_nonword (s : string) (in_run : bool) : string :=
  match s with
  | EmptyString => EmptyString
  | String c s' =>
      if is_word_or_hyphen c then String c (replace_nonword s' false)
      else if in_run then replace_nonword s' true
      else String underscore (replace_nonword s' true)
  end.

(** The [^_+] alternative of [/^_+|_+$/g]: the leading underscores. *)
Fixpoint drop_leading_us (s : string) : string :=
  match s with
  | String c s' => if Ascii.eqb c underscore then drop_leading_us s' else s
  | EmptyString => EmptyString
  end.

(** The [_+$] alternative: the run of underscores that reaches the end. *)
Fixpoint drop_trailing_us (s : string) : string :=
  match s with
  | EmptyString => EmptyString
  | String c s' =>
      let r := drop_trailing_us s' in
      if Ascii.eqb c underscore && String.eqb r "" then EmptyString else String c r
  end.

(** [safeFilename(name)] (agent.js lines 107-112), on a string. *)
Definition safeFilename (name : string) : string :=
  let n := if String.eqb name "" then "candidate" else name in
  drop_trailing_us (drop_leading_us (replace_nonword (js_trim n) false)).

(** The value [getCoverage] returns. *)
Record coverage_info := { count : nat; total : nat; fraction : Q }.

(** [getCoverage(transcript, skillNames)] (agent.js lines 188-193). *)
Definition getCoverage (transcript : list qa) (skillNames : list string) : coverage_info :=
  let answered : gset string :=
    list_to_set (List.filter (fun k => negb (String.eqb k "")) (map qa_skill transcript)) in
  let total := List.length skillNames in
  let count := List.length (List.filter (fun k => bool_decide (k ∈ answered)) skillNames) in
  {| count := count; total := total;
     fraction := if (total =? 0)%nat then 0%Q else (inject_Z (Z.of_nat count) / inject_Z (Z.of_nat total))%Q |}.

(* ================================================================== *)
(** ** The assessment module (agent.js lines 1103-1205) *)
(* ================================================================== *)

(** The file appended to agent.js from line 1103 on has its own helpers:
    [clamp] and [scoreTo100] work on raw JS numbers, with no [isFinite]
    guard, so a NaN goes straight through.  Arithmetic is on doubles;
    an array length (below [2^32]) is an exact double. *)
Module Assess.

Section Assessment.

Variable num_to_string : Q -> string.

(** [StringToNumber]: the numeric value of a string, as [Number(s)]. *)
Variable string_to_number : string -> jsnum.

(** [ToNumber(v)] on a parsed JSON value or [undefined].  Arrays and
    objects go through [ToPrimitive], whose [valueOf] returns the value
    itself, so their [String(v)] is read as a number. *)
Definition to_number (v : jsval) : js_result jsnum :=
  match v with
  | JUndef => Ok NNaN
  | JNull => Ok (NFin 0)
  | JBool b => Ok (NFin (if b then 1 else 0))
  | JNum n => Ok n
  | JStr s => Ok (string_to_number s)
  | JArr _ | JObj _ =>
      let! s := js_ToString num_to_string v in Ok (string_to_number s)
  end.

(** [Math.min(a, x)] and [Math.max(a, x)] for a finite [a]. *)
Definition math_min (a : Q) (x : jsnum) : jsnum :=
  match x with
  | NNaN => NNaN
  | NFin q => NFin (if Qle_bool a q then a else q)
  | NInf false => NFin a
  | NInf true => NInf true
  end.

Definition math_max (a : Q) (x : jsnum) : jsnum :=
  match x with
  | NNaN => NNaN
  | NFin q => NFin (if Qle_bool q a then a else q)
  | NInf false => NInf false
  | NInf true => NFin a
  end.

(** [clamp(n)] (agent.js lines 1130-1132). *)
Definition clamp (n : jsval) : js_result jsnum :=
  let! x := to_number n in
  Ok (math_max 1 (math_min 9 (math_round x))).

(** [scoreTo100(s)] (agent.js lines 1134-1136). *)
Definition scoreTo100 (s : jsnum) : jsnum :=
  math_round (dmul (ddiv (dsub s (NFin 1)) (NFin 8)) (NFin 100)).

(** The object [{ ...s, score: clamp(s.score_1_to_9) }]: the assessor's
    entry [s] with its clamped score. *)
Record scored_skill := { entry : jsval; score : jsnum }.

Record exercise_result := { exercise_score : jsnum; evidence_bullets : jsval }.

(** The object [runAssessment] returns. *)
Record report := {
  candidate : jsval;
  recommendation : jsval;
  overall_score : jsnum;
  skill_scores : list scored_skill;
  exercise : exercise_result;
  summary : jsval
}.

(** The body of [runAssessment] (agent.js lines 1139-1205) after
    [callAIJSON] returned the parsed [assessment]. *)
Definition runAssessment_body (candidateName assessment : jsval) : js_result report :=
  let! ss := get_prop assessment "skill_scores" in
  let! skillScores :=
    match ss with
    | JArr l =>
        mapR (fun s => let! v := get_prop s "score_1_to_9" in
                       let! c := clamp v in
                       Ok {| entry := s; score := c |}) l
    | _ => Throw type_error
    end in
  let skillsAvg :=
    ddiv (fold_left (fun a b => dadd a (score b)) skillScores (NFin 0))
         (NFin (inject_Z (Z.of_nat (List.length skillScores)))) in
  let skills100 := scoreTo100 skillsAvg in
  let! ex := get_prop assessment "exercise_score_1_to_9" in
  let! exc := clamp ex in
  let exercise100 := scoreTo100 exc in
  let overall := math_round (dadd (dmul skills100 (NFin d0_7)) (dmul exercise100 (NFin d0_3))) in
  let! rec := get_prop assessment "recommendation" in
  let! ex' := get_prop assessment "exercise_score_1_to_9" in
  let! exc' := clamp ex' in
  let! ev := get_prop assessment "exercise_evidence_bullets" in
  let! summ := get_prop assessment "summary" in
  Ok {| candidate := candidateName;
        recommendation := rec;
        overall_score := overall;
        skill_scores := skillScores;
        exercise := {| exercise_score := exc'; evidence_bullets := ev |};
        summary := summ |}.

(** [JSON.parse], throwing a SyntaxError message on invalid text. *)
Variable json_parse : string -> js_result jsval.

(** [callAIJSON(messages)] (agent.js lines 1122-1128), given the
    [output_text] of the model's response. *)
Definition callAIJSON (output_text : string) : js_result jsval :=
  json_parse (cleanJSON_assessment output_text).

Definition runAssessment (candidateName : jsval) (output_text : string) : js_result report :=
  let! assessment := callAIJSON output_text in
  runAssessment_body candidateName assessment.

End Assessment.

End Assess.

(* ================================================================== *)
(** ** Definitions used only in statements *)
(* ================================================================== *)

(** A clamped 1-9 score of the assessment module: NaN or an integer
    from 1 to 9. *)
Definition score_shape (x : jsnum) : Prop :=
  x = NNaN \/ exists k, x = NFin (inject_Z k) /\ (1 <= k <= 9)%Z.

(** Every character of [s] satisfies [f]. *)
Fixpoint str_forall (f : ascii -> bool) (s : string) : bool :=
  match s with
  | EmptyString => true
  | String c s' => f c && str_forall f s'
  end.

Definition starts_with_us (s : string) : bool :=
  match s with String c _ => Ascii.eqb c underscore | EmptyString => false end.

Fixpoint ends_with_us (s : string) : bool :=
  match s with
  | EmptyString => false
  | String c EmptyString => Ascii.eqb c underscore
  | String _ s' => ends_with_us s'
  end.

Fixpoint nobrace (s : string) : bool :=
  match s with
  | EmptyString => true
  | String c s' => negb (Ascii.eqb c lbrace) && negb (Ascii.eqb c rbrace) && nobrace s'
  end.

(** The one-character string holding a double quote. *)
Definition dquote : string := String (ascii_of_nat 34) EmptyString.

(** The text of a JSON object: [{], its inside [m], [}]. *)
Definition braced (m : string) : string := String lbrace (m ++ String rbrace EmptyString).

(** The slicing condition of the server's [cleanJSON]: a [{] and a [}]
    with the last [}] after the first [{]. *)
Definition has_brace_pair (t : string) : Prop :=
  index_of lbrace t <> (-1)%Z /\ last_index_of rbrace t <> (-1)%Z /\
  (index_of lbrace t < last_index_of rbrace t)%Z.

(** [Σ weight_i] and [Σ weight_i × score_i] over the scored skills,
    with weight 0 for a skill the matrix does not list. *)
Definition total_weight (skillScores : list skill_score) (skills : list skill_def) : Q :=
  fold_right Qplus 0%Q (map (fun ss => weight_of skills (skill ss)) skillScores).

Definition weighted_sum (skillScores : list skill_score) (skills : list skill_def) : Q :=
  fold_right Qplus 0%Q
    (map (fun ss => weight_of skills (skill ss) * inject_Z (score_1_to_9 ss))%Q skillScores).

(** The weighted score as the spec words it: [round(((avg-1)/8)*100)] of
    the unrounded average. *)
Definition spec_weighted_score (skillScores : list skill_score) (skills : list skill_def) : Z :=
  let tw := total_weight skillScores skills in
  if Qle_bool tw 0 then 0%Z
  else js_round ((weighted_sum skillScores skills / tw - 1) / 8 * 100)%Q.

(** No entry of the raw [skill_scores] array has the trimmed skill name [nm]. *)
Definition absent_from (nts : Q -> string) (raw : jsval) (nm : string) : Prop :=
  forall l x k y, get_prop raw "skill_scores" = Ok (JArr l) -> In x l ->
    keyed_entry nts x = Ok (k, y) -> k <> nm.

(** A scored skill with the given score and the default texts. *)
Definition scored (k : string) (z : Z) : skill_score :=
  {| skill := k; score_1_to_9 := z; confidence_low_med_high := JStr "medium";
     assessor_stance := JStr "strict"; why_this_score := "";
     what_was_missing_for_next_level := ""; evidence_bullets := [];
     risks := []; followups := [] |}.

(** [y] is [x] with a brace-free prefix removed, resp. suffix. *)
Definition drops_prefix (x y : string) : Prop :=
  exists pre, nobrace pre = true /\ x = pre ++ y.

Definition drops_suffix (x y : string) : Prop :=
  exists post, nobrace post = true /\ x = y ++ post.

(** [x] is the object text [{m}] between brace-free text. *)
Definition shaped (m x : string) : Prop :=
  exists p s, nobrace p = true /\ nobrace s = true /\
    x = p ++ String lbrace (m ++ String rbrace EmptyString) ++ s.

(* ################################################################## *)
(** * Proofs *)
(* ################################################################## *)

(** ** Strings *)

Example cleanJSON_fenced :
  cleanJSON ("```JSON" ++ String "010" "{}" ++ String "010" "```") = "{}".
Proof. vm_compute. reflexivity. Qed.

Example cleanJSON_text : cleanJSON "Here: {draft} then {}" = "{draft} then {}".
Proof. vm_compute. reflexivity. Qed.

Example cleanJSON_backwards :
  cleanJSON "} {" = "} {" /\ cleanJSON_assessment "} {" = "".
Proof. vm_compute. split; reflexivity. Qed.

Lemma str_app_nil_r (s : string) : s ++ "" = s.
Proof. induction s; simpl; congruence. Qed.

Lemma str_app_assoc (a b c : string) : a ++ (b ++ c) = (a ++ b) ++ c.
Proof. induction a; simpl; congruence. Qed.

Lemma str_length_app (a b : string) :
  String.length (a ++ b) = (String.length a + String.length b)%nat.
Proof. induction a; simpl; congruence. Qed.

Lemma str_app_eq_app (a b c d : string) :
  a ++ b = c ++ d ->
  exists m, (a = c ++ m /\ d = m ++ b) \/ (c = a ++ m /\ b = m ++ d).
Proof.
  revert c. induction a as [|x a IH]; intros c H; simpl in H.
  - exists c. right. auto.
  - destruct c as [|y c]; simpl in H.
    + exists (String x a). left. simpl. auto.
    + injection H as -> H. destruct (IH c H) as [m [[-> ->]|[-> ->]]].
      * exists m. left. auto.
      * exists m. right. auto.
Qed.

Lemma nobrace_app (a b : string) : nobrace (a ++ b) = nobrace a && nobrace b.
Proof. induction a; simpl; [reflexivity|]. rewrite IHa. now rewrite !andb_assoc. Qed.

Lemma ws_nobrace (c : ascii) :
  is_ws c = true -> Ascii.eqb c lbrace = false /\ Ascii.eqb c rbrace = false.
Proof.
  intros H. split; [destruct (Ascii.eqb_spec c lbrace)|destruct (Ascii.eqb_spec c rbrace)];
    subst; try reflexivity; discriminate H.
Qed.

Lemma all_ws_nobrace (s : string) : all_ws s = true -> nobrace s = true.
Proof.
  induction s as [|c s IH]; simpl; [reflexivity|].
  intros H. apply andb_prop in H as [Hc Hs].
  destruct (ws_nobrace c Hc) as [-> ->]. simpl. auto.
Qed.

Lemma drops_prefix_refl (x : string) : drops_prefix x x.
Proof. exists "". auto. Qed.

Lemma drops_prefix_trans (x y z : string) :
  drops_prefix x y -> drops_prefix y z -> drops_prefix x z.
Proof.
  intros [p1 [H1 ->]] [p2 [H2 ->]]. exists (p1 ++ p2).
  rewrite nobrace_app, H1, H2, str_app_assoc. auto.
Qed.

Lemma drops_prefix_cons (c : ascii) (x y : string) :
  Ascii.eqb c lbrace = false -> Ascii.eqb c rbrace = false ->
  drops_prefix x y -> drops_prefix (String c x) y.
Proof.
  intros H1 H2 [p [Hp ->]]. exists (String c p). simpl. rewrite H1, H2, Hp. auto.
Qed.

Lemma trim_start_drops (x : string) : drops_prefix x (trim_start x).
Proof.
  induction x as [|c x IH]; simpl; [apply drops_prefix_refl|].
  destruct (is_ws c) eqn:E; [|apply drops_prefix_refl].
  destruct (ws_nobrace c E). now apply drops_prefix_cons.
Qed.

Lemma backtick_run_rest (x : string) (k : nat) (r : string) :
  backtick_run x = (k, r) -> drops_prefix x r.
Proof.
  revert k. induction x as [|c x IH]; simpl; intros k H.
  - injection H as _ <-. apply drops_prefix_refl.
  - destruct (Ascii.eqb_spec c backtick) as [->|Hc].
    + destruct (backtick_run x) as [k' r'] eqn:E. injection H as _ <-.
      apply drops_prefix_cons; [reflexivity|reflexivity|]. eapply IH; eauto.
    + injection H as _ <-. apply drops_prefix_refl.
Qed.

Lemma backtick_run_drop (x : string) (k j : nat) (r : string) :
  backtick_run x = (k, r) -> (j <= k)%nat -> drops_prefix x (drop_n j x).
Proof.
  revert k j r. induction x as [|c x IH]; simpl; intros k j r H Hj.
  - destruct j; apply drops_prefix_refl.
  - destruct j as [|j]; [apply drops_prefix_refl|]. simpl.
    destruct (Ascii.eqb_spec c backtick) as [->|Hc].
    + revert H. case_eq (backtick_run x). intros k' r' E H. injection H as <- _.
      apply drops_prefix_cons; [reflexivity|reflexivity|].
      apply (IH k' j r'); [exact E|lia].
    + injection H as <- _. lia.
Qed.

Lemma lower_brace (c : ascii) :
  (Ascii.eqb c lbrace = true -> lower c = lbrace) /\
  (Ascii.eqb c rbrace = true -> lower c = rbrace).
Proof.
  split; intros H; apply Ascii.eqb_eq in H; subst; reflexivity.
Qed.

Lemma starts_with_ci_drops (p s : string) :
  starts_with_ci p s = true -> nobrace p = true ->
  drops_prefix s (drop_n (String.length p) s).
Proof.
  revert s. induction p as [|a p IH]; intros s H Hp; simpl.
  - apply drops_prefix_refl.
  - destruct s as [|b s]; [discriminate H|]. simpl in H, Hp.
    apply andb_prop in H as [Hab H]. apply Ascii.eqb_eq in Hab.
    apply andb_prop in Hp as [Hp Hp']. apply andb_prop in Hp as [Ha1 Ha2].
    apply negb_true_iff in Ha1, Ha2. destruct (lower_brace b) as [L1 L2].
    apply drops_prefix_cons; [| |apply IH; auto].
    + destruct (Ascii.eqb b lbrace) eqn:E; auto.
      rewrite <- Ha1, Hab, (L1 eq_refl). now rewrite Ascii.eqb_refl.
    + destruct (Ascii.eqb b rbrace) eqn:E; auto.
      rewrite <- Ha2, Hab, (L2 eq_refl). now rewrite Ascii.eqb_refl.
Qed.

Lemma strip_fence_json_drops (t : string) : drops_prefix t (strip_fence_json t).
Proof.
  unfold strip_fence_json.
  destruct (backtick_run (trim_start t)) as [k s2] eqn:E.
  destruct (_ && _)%bool; [|apply drops_prefix_refl].
  destruct (starts_with_ci "json" (trim_start s2)) eqn:J; [|apply drops_prefix_refl].
  eapply drops_prefix_trans; [apply trim_start_drops|].
  eapply drops_prefix_trans; [eapply backtick_run_rest; eauto|].
  eapply drops_prefix_trans; [apply trim_start_drops|].
  eapply drops_prefix_trans; [apply (starts_with_ci_drops "json"); auto|].
  apply trim_start_drops.
Qed.

Lemma strip_fence_open_drops (t : string) : drops_prefix t (strip_fence_open t).
Proof.
  unfold strip_fence_open.
  destruct (backtick_run (trim_start t)) as [k s2] eqn:E.
  destruct (1 <=? k)%nat; [|apply drops_prefix_refl].
  eapply drops_prefix_trans; [apply trim_start_drops|].
  eapply drops_prefix_trans; [apply (backtick_run_drop _ k (Nat.min k 3) s2); [exact E|lia]|].
  apply trim_start_drops.
Qed.

Lemma fence_tail_nobrace (s : string) : fence_tail s = true -> nobrace s = true.
Proof.
  unfold fence_tail. destruct (backtick_run (trim_start s)) as [k r] eqn:E.
  intros H. apply andb_prop in H as [_ H].
  destruct (trim_start_drops s) as [p1 [H1 Hs]].
  destruct (backtick_run_rest _ _ _ E) as [p2 [H2 Ht]].
  rewrite Hs, Ht, !nobrace_app, H1, H2, all_ws_nobrace; auto.
Qed.

Lemma strip_fence_close_drops (t : string) : drops_suffix t (strip_fence_close t).
Proof.
  induction t as [|c t IH]; simpl.
  - exists "". auto.
  - destruct (fence_tail (String c t)) eqn:F.
    + exists (String c t). split; [apply fence_tail_nobrace; auto|reflexivity].
    + destruct IH as [q [Hq Ht]]. exists q. split; [auto|]. simpl. congruence.
Qed.

Lemma trim_end_drops (x : string) : drops_suffix x (trim_end x).
Proof.
  induction x as [|c x IH]; simpl.
  - exists "". auto.
  - destruct IH as [q [Hq Hx]]. destruct (trim_end x) as [|d r] eqn:E.
    + simpl in Hx. subst x. destruct (is_ws c) eqn:W.
      * exists (String c q). destruct (ws_nobrace c W) as [H1 H2].
        split; [simpl; rewrite H1, H2, Hq; reflexivity|reflexivity].
      * exists q. auto.
    + exists q. split; [auto|]. rewrite Hx. reflexivity.
Qed.

Lemma prefix_shape (pre y p w : string) :
  nobrace pre = true -> nobrace p = true ->
  pre ++ y = p ++ String lbrace w ->
  exists p2, nobrace p2 = true /\ y = p2 ++ String lbrace w.
Proof.
  revert p. induction pre as [|c pre IH]; intros p Hpre Hp H; simpl in H.
  - exists p. auto.
  - destruct p as [|d p]; simpl in H; injection H as Hc H.
    + subst c. discriminate Hpre.
    + simpl in Hpre, Hp. apply andb_prop in Hpre as [_ Hpre].
      apply andb_prop in Hp as [_ Hp]. eapply IH; eauto.
Qed.

Lemma shaped_prefix (m x y : string) :
  drops_prefix x y -> shaped m x -> shaped m y.
Proof.
  intros [pre [Hpre ->]] [p [s [Hp [Hs H]]]].
  destruct (prefix_shape pre y p _ Hpre Hp H) as [p2 [Hp2 ->]].
  exists p2, s. auto.
Qed.

Lemma shaped_suffix (m x y : string) :
  drops_suffix x y -> shaped m x -> shaped m y.
Proof.
  intros [post [Hpost ->]] [p [s [Hp [Hs H]]]].
  set (A := p ++ String lbrace m).
  assert (HA : p ++ String lbrace (m ++ String rbrace "") ++ s
               = (A ++ String rbrace "") ++ s).
  { unfold A. rewrite <- !str_app_assoc. simpl. now rewrite <- str_app_assoc. }
  rewrite HA in H. clear HA.
  destruct (str_app_eq_app _ _ _ _ H) as [k [[Hy Hs'] | [Hk Hpost']]].
  - subst s. rewrite nobrace_app in Hs. apply andb_prop in Hs as [Hk _].
    exists p, k. split; [auto|split; [auto|]].
    rewrite Hy. unfold A. rewrite <- !str_app_assoc. simpl.
    now rewrite <- str_app_assoc.
  - subst post. rewrite nobrace_app in Hpost. apply andb_prop in Hpost as [Hk' _].
    destruct (str_app_eq_app _ _ _ _ Hk) as [j [[_ Hj] | [Hy Hj]]].
    + subst k. rewrite nobrace_app in Hk'. simpl in Hk'.
      rewrite andb_false_r in Hk'. discriminate.
    + destruct j as [|c j]; simpl in Hj.
      * subst k. discriminate Hk'.
      * injection Hj as <- Hj. destruct j, k; try discriminate.
        exists p, "". split; [auto|split; [reflexivity|]].
        rewrite Hy, str_app_nil_r. unfold A. rewrite <- !str_app_assoc.
        reflexivity.
Qed.

Lemma strip_fences_shaped (m t : string) : shaped m t -> shaped m (strip_fences t).
Proof.
  intros H. unfold strip_fences, js_trim.
  eapply shaped_suffix; [apply strip_fence_close_drops|].
  eapply shaped_prefix; [apply strip_fence_open_drops|].
  eapply shaped_prefix; [apply strip_fence_json_drops|].
  eapply shaped_suffix; [apply trim_end_drops|].
  eapply shaped_prefix; [apply trim_start_drops|]. exact H.
Qed.

Lemma index_of_brace (p w : string) :
  nobrace p = true ->
  index_of lbrace (p ++ String lbrace w) = Z.of_nat (String.length p).
Proof.
  induction p as [|c p IH]; intros Hp; [reflexivity|].
  cbn [String.append index_of String.length].
  simpl in Hp. apply andb_prop in Hp as [Hc Hp]. apply andb_prop in Hc as [Hc _].
  apply negb_true_iff in Hc. rewrite Ascii.eqb_sym, Hc, IH by exact Hp.
  destruct (Z.eqb_spec (Z.of_nat (String.length p)) (-1)); lia.
Qed.

Lemma last_index_of_ge (c : ascii) (s : string) : (-1 <= last_index_of c s)%Z.
Proof.
  induction s as [|d s IH]; simpl; [lia|].
  destruct (Z.eqb_spec (last_index_of c s) (-1)); [destruct (Ascii.eqb c d)|]; lia.
Qed.

Lemma last_index_of_app (c : ascii) (x s : string) :
  last_index_of c (x ++ s) =
  if (last_index_of c s =? -1)%Z then last_index_of c x
  else (Z.of_nat (String.length x) + last_index_of c s)%Z.
Proof.
  induction x as [|d x IH]; simpl.
  - destruct (Z.eqb_spec (last_index_of c s) (-1)); lia.
  - rewrite IH. pose proof (last_index_of_ge c s).
    destruct (Z.eqb_spec (last_index_of c s) (-1)); [reflexivity|].
    destruct (Z.eqb_spec (Z.of_nat (String.length x) + last_index_of c s) (-1)); lia.
Qed.

Lemma last_index_of_nobrace (s : string) :
  nobrace s = true -> last_index_of rbrace s = (-1)%Z.
Proof.
  induction s as [|c s IH]; intros H; [reflexivity|].
  simpl in H. apply andb_prop in H as [Hc H]. apply andb_prop in Hc as [_ Hc].
  apply negb_true_iff in Hc. cbn [last_index_of]. rewrite IH by exact H.
  cbn zeta. rewrite Ascii.eqb_sym, Hc. reflexivity.
Qed.

Lemma substring_app (p o s : string) :
  substring (String.length p) (String.length o) (p ++ o ++ s) = o.
Proof.
  induction p as [|c p IH]; simpl; [|exact IH].
  induction o as [|d o IHo]; simpl; [now destruct s|]. now rewrite IHo.
Qed.

Lemma trim_end_last (w : string) (c : ascii) :
  is_ws c = false -> trim_end (w ++ String c "") = w ++ String c "".
Proof.
  intros Hc. induction w as [|d w IH]; simpl.
  - now rewrite Hc.
  - rewrite IH. destruct w; reflexivity.
Qed.

Lemma js_trim_object (m : string) :
  js_trim (String lbrace (m ++ String rbrace "")) = String lbrace (m ++ String rbrace "").
Proof.
  unfold js_trim. simpl trim_start.
  apply (trim_end_last (String lbrace m) rbrace). reflexivity.
Qed.

Lemma index_of_get (c : ascii) (s : string) :
  index_of c s <> (-1)%Z ->
  (0 <= index_of c s)%Z /\ get (Z.to_nat (index_of c s)) s = Some c.
Proof.
  induction s as [|d s IH]; simpl; intros H; [lia|].
  destruct (Ascii.eqb_spec c d) as [->|Hcd]; [split; [lia|reflexivity]|].
  destruct (Z.eqb_spec (index_of c s) (-1)) as [E|E]; [lia|].
  destruct (IH E) as [H0 Hg]. split; [lia|].
  replace (Z.to_nat (index_of c s + 1)) with (S (Z.to_nat (index_of c s))) by lia.
  exact Hg.
Qed.

Lemma last_index_of_get (c : ascii) (s : string) :
  last_index_of c s <> (-1)%Z ->
  (0 <= last_index_of c s)%Z /\ get (Z.to_nat (last_index_of c s)) s = Some c.
Proof.
  induction s as [|d s IH]; simpl; intros H; [lia|].
  destruct (Z.eqb_spec (last_index_of c s) (-1)) as [E|E].
  - destruct (Ascii.eqb_spec c d) as [->|Hcd]; [split; [lia|reflexivity]|lia].
  - destruct (IH E) as [H0 Hg]. split; [lia|].
    replace (Z.to_nat (last_index_of c s + 1)) with (S (Z.to_nat (last_index_of c s))) by lia.
    exact Hg.
Qed.

Lemma substring_zero (n : nat) (s : string) : substring n 0 s = "".
Proof. revert s. induction n; intros [|c s]; simpl; auto. Qed.

Lemma strip_fences_braced (p m s : string) :
  nobrace p = true -> nobrace s = true ->
  exists p2 s2, nobrace p2 = true /\ nobrace s2 = true /\
    strip_fences (p ++ braced m ++ s) = p2 ++ braced m ++ s2.
Proof.
  intros Hp Hs. apply strip_fences_shaped. exists p, s. auto.
Qed.

Lemma braced_assoc (p m s : string) :
  p ++ braced m ++ s = ((p ++ String lbrace m) ++ String rbrace "") ++ s.
Proof.
  unfold braced. rewrite <- !str_app_assoc. simpl. now rewrite <- str_app_assoc.
Qed.

(** ** C4: JSON extraction *)

(** C4 (amended). When the text around a JSON object holds no brace,
    [cleanJSON] returns exactly the object, whatever code fences and
    whitespace surround it. When the text has no [{] followed later by a
    [}], [cleanJSON] does not slice and returns the fence-stripped,
    trimmed text; it does not signal a failure. *)
Theorem cleanJSON_extracts_object (p m s t : string) :
  nobrace p = true -> nobrace s = true ->
  cleanJSON (p ++ braced m ++ s) = braced m /\
  (~ has_brace_pair (strip_fences t) -> cleanJSON t = js_trim (strip_fences t)).
Proof.
  intros Hp Hs. split.
  - destruct (strip_fences_braced p m s Hp Hs) as [p2 [s2 [Hp2 [Hs2 E]]]].
    assert (Ha : index_of lbrace (strip_fences (p ++ braced m ++ s))
                 = Z.of_nat (String.length p2)).
    { rewrite E. apply (index_of_brace p2 ((m ++ String rbrace "") ++ s2) Hp2). }
    assert (Hb : last_index_of rbrace (strip_fences (p ++ braced m ++ s))
                 = Z.of_nat (String.length p2 + S (String.length m))).
    { rewrite E, braced_assoc, last_index_of_app, last_index_of_nobrace by exact Hs2.
      simpl Z.eqb. cbv iota.
      rewrite last_index_of_app. simpl. rewrite str_length_app. simpl. lia. }
    unfold cleanJSON. cbv zeta. rewrite Ha, Hb.
    destruct (Z.eqb_spec (Z.of_nat (String.length p2)) (-1)); [lia|].
    destruct (Z.eqb_spec (Z.of_nat (String.length p2 + S (String.length m))) (-1)); [lia|].
    destruct (Z.ltb_spec (Z.of_nat (String.length p2))
                (Z.of_nat (String.length p2 + S (String.length m)))); [|lia].
    simpl andb. cbv iota. unfold js_slice. rewrite E, Nat2Z.id.
    replace (Z.to_nat (Z.of_nat (String.length p2 + S (String.length m)) + 1)
             - String.length p2)%nat
      with (String.length (braced m)).
    + rewrite substring_app. apply js_trim_object.
    + unfold braced. simpl. rewrite str_length_app. simpl. lia.
  - intros Hn. unfold cleanJSON. cbv zeta. unfold has_brace_pair in Hn.
    destruct (Z.eqb_spec (index_of lbrace (strip_fences t)) (-1)); [reflexivity|].
    destruct (Z.eqb_spec (last_index_of rbrace (strip_fences t)) (-1)); [reflexivity|].
    destruct (Z.ltb_spec (index_of lbrace (strip_fences t))
                (last_index_of rbrace (strip_fences t))); [|reflexivity].
    exfalso. apply Hn. auto.
Qed.

Lemma cleanJSON_extracts_object_witness :
  nobrace "Result: ```json " = true /\ nobrace (String "010" "```") = true /\
  (cleanJSON ("Result: ```json " ++ braced (dquote ++ "a" ++ dquote ++ ": 1")
              ++ String "010" "```")
   = braced (dquote ++ "a" ++ dquote ++ ": 1") /\
   (~ has_brace_pair (strip_fences "[1, 2]") ->
    cleanJSON "[1, 2]" = js_trim (strip_fences "[1, 2]"))).
Proof.
  split; [reflexivity|]. split; [reflexivity|].
  apply cleanJSON_extracts_object; reflexivity.
Defined.

(** C4 as stated fails: braces in the surrounding text are kept, and a
    text without braces is returned as it is rather than failing. *)
Lemma cleanJSON_extracts_object_counterexample :
  cleanJSON ("Draft {v1}: " ++ braced "" ++ "") <> braced "" /\
  cleanJSON "[1, 2]" = "[1, 2]".
Proof. vm_compute. split; [discriminate|reflexivity]. Qed.

(** ** C10: the two [cleanJSON] copies *)

(** C10 (amended). The assessment module's [cleanJSON] returns the same
    string as the server's, except when the fence-stripped text holds a
    [{] and a [}] with the last [}] before the first [{]: there it returns
    the empty string (the slice is empty). *)
Theorem cleanJSON_assessment_vs_server (t : string) :
  cleanJSON_assessment t =
  if (negb (index_of lbrace (strip_fences t) =? -1)
      && negb (last_index_of rbrace (strip_fences t) =? -1)
      && (last_index_of rbrace (strip_fences t) <? index_of lbrace (strip_fences t)))%Z
  then "" else cleanJSON t.
Proof.
  unfold cleanJSON_assessment, cleanJSON. cbv zeta.
  set (u := strip_fences t).
  destruct (Z.eqb_spec (index_of lbrace u) (-1)) as [Ea|Ea]; [reflexivity|].
  destruct (Z.eqb_spec (last_index_of rbrace u) (-1)) as [Eb|Eb]; [reflexivity|].
  destruct (index_of_get lbrace u Ea) as [Ha Ga].
  destruct (last_index_of_get rbrace u Eb) as [Hb Gb].
  destruct (Z.ltb_spec (index_of lbrace u) (last_index_of rbrace u)).
  - destruct (Z.ltb_spec (last_index_of rbrace u) (index_of lbrace u)); [lia|].
    reflexivity.
  - destruct (Z.eqb_spec (index_of lbrace u) (last_index_of rbrace u)) as [Eq|Ne].
    + rewrite Eq, Gb in Ga. discriminate Ga.
    + destruct (Z.ltb_spec (last_index_of rbrace u) (index_of lbrace u)); [|lia].
      simpl. unfold js_slice.
      replace (Z.to_nat (last_index_of rbrace u + 1) - Z.to_nat (index_of lbrace u))%nat
        with 0%nat by lia.
      now rewrite substring_zero.
Qed.

(** C10 as stated fails: on [} {] the server keeps the text and the
    assessment module returns the empty string. *)
Lemma cleanJSON_assessment_vs_server_counterexample :
  cleanJSON_assessment "} {" <> cleanJSON "} {".
Proof. vm_compute. discriminate. Qed.

Example clampInt_examples :
  clampInt (fun _ => "") (JStr " 7.9kg") 1 9 = Ok 7%Z /\
  clampInt (fun _ => "") (JNum (NFin (25 # 2))) 1 9 = Ok 9%Z /\
  clampInt (fun _ => "") (JNum (NFin (3 # 2))) 1 9 = Ok 2%Z /\
  clampInt (fun _ => "") JNull 1 9 = Ok 1%Z /\
  clampInt (fun _ => "") (JObj [("toString", JNum (NFin 1))]) 1 9 = Throw type_error.
Proof. vm_compute. repeat split. Qed.

(** ** C9: [clampInt] *)

Lemma js_round_Z (z : Z) : js_round (inject_Z z) = z.
Proof.
  unfold js_round, Qfloor, Qplus, inject_Z. simpl.
  rewrite Z.mul_1_r. rewrite Z.div_add_l by lia.
  replace (1 / Z.pos (1 * 2))%Z with 0%Z by reflexivity. lia.
Qed.

Lemma clampInt_num_bounds (q : Q) (min max : Z) :
  (min <= max)%Z -> (min <= clampInt_num q min max <= max)%Z.
Proof. unfold clampInt_num. lia. Qed.

Lemma clampInt_num_Z (z min max : Z) :
  (min <= z <= max)%Z -> clampInt_num (inject_Z z) min max = z.
Proof. intros H. unfold clampInt_num. rewrite js_round_Z. lia. Qed.

Lemma parse_branch_cases (m : js_result string) (min max r : Z) :
  bindR m (fun str => match js_parseInt10 str with
                      | NFin x => Ok (clampInt_num x min max)
                      | _ => Ok min
                      end) = Ok r ->
  r = min \/ exists q, r = clampInt_num q min max.
Proof.
  destruct m as [str|e]; simpl; [|discriminate].
  destruct (js_parseInt10 str); intros H; injection H as <-; eauto.
Qed.

Lemma clampInt_ok_cases (nts : Q -> string) (n : jsval) (min max r : Z) :
  clampInt nts n min max = Ok r -> r = min \/ exists q, r = clampInt_num q min max.
Proof.
  intros H. unfold clampInt in H.
  destruct n as [| | |[q| |]| | |];
    first [ injection H as <-; right; eexists; reflexivity
          | eapply parse_branch_cases; exact H ].
Qed.

(** Whenever [clampInt(n)] returns, its value lies in [1,9] and
    clamping it again gives it back. *)
Lemma clampInt_range_idempotent (nts : Q -> string) (n : jsval) (r : Z) :
  clampInt nts n 1 9 = Ok r ->
  (1 <= r <= 9)%Z /\ clampInt nts (JNum (NFin (inject_Z r))) 1 9 = Ok r.
Proof.
  intros H.
  assert (Hr : (1 <= r <= 9)%Z).
  { destruct (clampInt_ok_cases nts n 1 9 r H) as [->|[q ->]]; [lia|].
    apply clampInt_num_bounds. lia. }
  split; [exact Hr|]. simpl. f_equal. apply clampInt_num_Z. exact Hr.
Qed.

(** [clampInt] throws only where [String(n)] throws. *)
Lemma clampInt_throw (nts : Q -> string) (n : jsval) (e : string) :
  clampInt nts n 1 9 = Throw e -> js_ToString nts n = Throw e.
Proof.
  unfold clampInt. destruct n as [| | |[q| |]| | |]; try discriminate;
    destruct (js_ToString nts _) as [str|e'] eqn:E; simpl; try congruence;
    destruct (js_parseInt10 str); discriminate.
Qed.

(** C9 (code_bug).  [clampInt] does not return a value in [1,9] for
    every input: on a parsed object with its own [toString] key,
    [String(n)] throws and so does [clampInt], with a TypeError.  It
    throws only there, and whenever it returns, the value lies in [1,9]
    and clamping it again gives it back. *)
Theorem clampInt_toString_throws (nts : Q -> string) :
  clampInt nts (JObj [("toString", JNum (NFin 1))]) 1 9 = Throw type_error /\
  (forall n e, clampInt nts n 1 9 = Throw e -> js_ToString nts n = Throw e) /\
  (forall n r, clampInt nts n 1 9 = Ok r ->
     (1 <= r <= 9)%Z /\ clampInt nts (JNum (NFin (inject_Z r))) 1 9 = Ok r).
Proof.
  split; [reflexivity|]. split.
  - exact (clampInt_throw nts).
  - exact (clampInt_range_idempotent nts).
Qed.

(** ** C1: weighted skills score *)

Lemma Qfloor_Qeq (x y : Q) : (x == y)%Q -> Qfloor x = Qfloor y.
Proof.
  intros H. apply Z.le_antisymm; apply Qfloor_resp_le; rewrite H; apply Qle_refl.
Qed.

Lemma js_round_Qeq (x y : Q) : (x == y)%Q -> js_round x = js_round y.
Proof. intros H. unfold js_round. apply Qfloor_Qeq. rewrite H. reflexivity. Qed.

(** *** Powers of two *)

Lemma p2_pos (k : Z) : (0 < 2 ^ k)%Q.
Proof. apply Qpower_0_lt. reflexivity. Qed.

Lemma p2_plus (a b : Z) : (2 ^ (a + b) == 2 ^ a * 2 ^ b)%Q.
Proof. apply Qpower_plus. discriminate. Qed.

Lemma p2_opp (k : Z) : (2 ^ (- k) == / 2 ^ k)%Q.
Proof. apply Qpower_opp. Qed.

Lemma p2_lt (a b : Z) : (a < b)%Z -> (2 ^ a < 2 ^ b)%Q.
Proof. intros H. apply Qpower_lt_compat_l; [exact H | reflexivity]. Qed.

Lemma p2_le (a b : Z) : (a <= b)%Z -> (2 ^ a <= 2 ^ b)%Q.
Proof. intros H. apply Qpower_le_compat_l; [exact H | discriminate]. Qed.

Lemma p2_lt_inv (a b : Z) : (2 ^ a < 2 ^ b)%Q -> (a < b)%Z.
Proof. intros H. apply (Qpower_lt_compat_l_inv 2); [exact H | reflexivity]. Qed.

Lemma p2_Z (k : Z) : (0 <= k)%Z -> (2 ^ k == inject_Z (2 ^ k))%Q.
Proof. intros H. rewrite (Zpower_Qpower 2 k H). reflexivity. Qed.

Lemma p2_ratio (x y : Z) : (0 <= x)%Z -> (0 <= y)%Z ->
  (2 ^ (x - y) == inject_Z (2 ^ x) / inject_Z (2 ^ y))%Q.
Proof.
  intros Hx Hy. replace (x - y)%Z with (x + - y)%Z by lia.
  rewrite p2_plus, p2_opp, (p2_Z x Hx), (p2_Z y Hy). reflexivity.
Qed.

Lemma div_Qmake (a b : Z) : (0 < b)%Z -> (inject_Z a / inject_Z b == a # Z.to_pos b)%Q.
Proof. intros H. rewrite Qmake_Qdiv. rewrite Z2Pos.id by lia. reflexivity. Qed.

Lemma Qdiv_le_cross (a b c d : Z) : (0 < b)%Z -> (0 < d)%Z -> (a * d <= c * b)%Z ->
  (inject_Z a / inject_Z b <= inject_Z c / inject_Z d)%Q.
Proof.
  intros Hb Hd H. rewrite (div_Qmake a b Hb), (div_Qmake c d Hd).
  unfold Qle. simpl. rewrite !Z2Pos.id by lia. exact H.
Qed.

Lemma Qdiv_lt_cross (a b c d : Z) : (0 < b)%Z -> (0 < d)%Z -> (a * d < c * b)%Z ->
  (inject_Z a / inject_Z b < inject_Z c / inject_Z d)%Q.
Proof.
  intros Hb Hd H. rewrite (div_Qmake a b Hb), (div_Qmake c d Hd).
  unfold Qlt. simpl. rewrite !Z2Pos.id by lia. exact H.
Qed.

(** *** [floor_log2] *)

Lemma floor_log2_spec (a : Q) : (0 < a)%Q ->
  (2 ^ floor_log2 a <= a)%Q /\ (a < 2 ^ (floor_log2 a + 1))%Q.
Proof.
  intros Ha. destruct a as [n d]. unfold floor_log2. cbn [Qnum Qden].
  assert (Hn : (0 < n)%Z) by (unfold Qlt in Ha; simpl in Ha; lia).
  pose proof (Z.log2_spec n Hn) as [Hn1 Hn2].
  pose proof (Z.log2_spec (Zpos d) eq_refl) as [Hd1 Hd2].
  pose proof (Z.log2_nonneg n) as Hln. pose proof (Z.log2_nonneg (Zpos d)) as Hld.
  set (ln := Z.log2 n) in *. set (ld := Z.log2 (Zpos d)) in *.
  assert (Hpn : (0 < 2 ^ ln)%Z) by (apply Z.pow_pos_nonneg; lia).
  assert (Hpd : (0 < 2 ^ ld)%Z) by (apply Z.pow_pos_nonneg; lia).
  rewrite (Qmake_Qdiv n d).
  assert (HA : (2 ^ (ln - ld - 1) <= inject_Z n / inject_Z (Zpos d))%Q).
  { replace (ln - ld - 1)%Z with (ln - (ld + 1))%Z by lia.
    rewrite p2_ratio by lia. apply Qdiv_le_cross; try lia.
    assert (2 ^ ln * Zpos d <= n * Zpos d)%Z by (apply Z.mul_le_mono_nonneg_r; lia).
    assert (n * Zpos d <= n * 2 ^ (ld + 1))%Z by (apply Z.mul_le_mono_nonneg_l; lia).
    lia. }
  assert (HB : (inject_Z n / inject_Z (Zpos d) < 2 ^ (ln - ld + 1))%Q).
  { replace (ln - ld + 1)%Z with ((ln + 1) - ld)%Z by lia.
    rewrite p2_ratio by lia. apply Qdiv_lt_cross; try lia.
    assert (n * 2 ^ ld <= n * Zpos d)%Z by (apply Z.mul_le_mono_nonneg_l; lia).
    assert (n * Zpos d < 2 ^ (ln + 1) * Zpos d)%Z by (apply Z.mul_lt_mono_pos_r; lia).
    lia. }
  rewrite <- (Qmake_Qdiv n d) in HA, HB |- *.
  destruct (Qle_bool (2 ^ (ln - ld)) (n # d)) eqn:E.
  - apply Qle_bool_iff in E. split; [exact E | exact HB].
  - split; [exact HA|].
    replace (ln - ld - 1 + 1)%Z with (ln - ld)%Z by lia.
    apply Qnot_le_lt. intros H. apply Qle_bool_iff in H. congruence.
Qed.

Lemma floor_log2_unique (a : Q) (e : Z) :
  (2 ^ e <= a)%Q -> (a < 2 ^ (e + 1))%Q -> floor_log2 a = e.
Proof.
  intros H1 H2.
  assert (Ha : (0 < a)%Q) by (apply Qlt_le_trans with (2 ^ e)%Q; [apply p2_pos | exact H1]).
  destruct (floor_log2_spec a Ha) as [F1 F2].
  assert (floor_log2 a < e + 1)%Z by (apply p2_lt_inv; apply Qle_lt_trans with a; assumption).
  assert (e < floor_log2 a + 1)%Z by (apply p2_lt_inv; apply Qle_lt_trans with a; assumption).
  lia.
Qed.

Lemma floor_log2_mono (a b : Q) : (0 < a)%Q -> (a <= b)%Q -> (floor_log2 a <= floor_log2 b)%Z.
Proof.
  intros Ha Hab.
  assert (Hb : (0 < b)%Q) by (apply Qlt_le_trans with a; assumption).
  destruct (floor_log2_spec a Ha) as [A1 A2]. destruct (floor_log2_spec b Hb) as [B1 B2].
  assert (floor_log2 a < floor_log2 b + 1)%Z.
  { apply p2_lt_inv. apply Qle_lt_trans with b; [|exact B2].
    apply Qle_trans with a; assumption. }
  lia.
Qed.

Lemma floor_log2_Qeq (a b : Q) : (0 < a)%Q -> (a == b)%Q -> floor_log2 a = floor_log2 b.
Proof.
  intros Ha H. destruct (floor_log2_spec a Ha) as [A1 A2].
  symmetry. apply floor_log2_unique; rewrite <- H; assumption.
Qed.

(** *** [round_ne] *)

Lemma Qfloor_Z (z : Z) : Qfloor (inject_Z z) = z.
Proof. unfold Qfloor, inject_Z. simpl. apply Z.div_1_r. Qed.

Lemma rne_Qeq (x y : Q) : (x == y)%Q -> round_ne x = round_ne y.
Proof.
  intros H. unfold round_ne. rewrite (Qfloor_Qeq x y H).
  assert (E : ((x - inject_Z (Qfloor y)) ?= 1 # 2)%Q = ((y - inject_Z (Qfloor y)) ?= 1 # 2)%Q)
    by (rewrite H; reflexivity).
  rewrite E. reflexivity.
Qed.

Lemma rne_bounds (x : Q) : (Qfloor x <= round_ne x <= Qfloor x + 1)%Z.
Proof.
  unfold round_ne. destruct (_ ?= _)%Q; try destruct (Z.even _); lia.
Qed.

Lemma rne_mono (x y : Q) : (x <= y)%Q -> (round_ne x <= round_ne y)%Z.
Proof.
  intros H. pose proof (Qfloor_resp_le x y H) as Hf.
  destruct (Z.eq_dec (Qfloor x) (Qfloor y)) as [Ef|Nf].
  - unfold round_ne. rewrite Ef.
    set (f := Qfloor y).
    assert (Hr : (x - inject_Z f <= y - inject_Z f)%Q) by lra.
    destruct (Qcompare_spec (x - inject_Z f) (1 # 2)) as [E1|E1|E1];
      destruct (Qcompare_spec (y - inject_Z f) (1 # 2)) as [E2|E2|E2];
      try (destruct (Z.even f)); try lia; exfalso; lra.
  - pose proof (rne_bounds x). pose proof (rne_bounds y). lia.
Qed.

Lemma rne_int (z : Z) : round_ne (inject_Z z) = z.
Proof.
  unfold round_ne. rewrite Qfloor_Z.
  destruct (Qcompare_spec (inject_Z z - inject_Z z) (1 # 2)); [exfalso; lra | reflexivity | exfalso; lra].
Qed.

Lemma rne_lt_int (x : Q) (N : Z) : (x < inject_Z N)%Q -> (round_ne x <= N)%Z.
Proof.
  intros H. pose proof (rne_bounds x).
  assert (Qfloor x < N)%Z.
  { rewrite Zlt_Qlt. apply Qle_lt_trans with x; [apply Qfloor_le | exact H]. }
  lia.
Qed.

Lemma rne_ge_int (x : Q) (N : Z) : (inject_Z N <= x)%Q -> (N <= round_ne x)%Z.
Proof.
  intros H. pose proof (rne_bounds x).
  pose proof (Qfloor_resp_le _ _ H). rewrite Qfloor_Z in *. lia.
Qed.

(** *** Rounding is monotone and exact on small integers *)

Lemma p2_nz (k : Z) : ~ (2 ^ k == 0)%Q.
Proof. intros H. pose proof (p2_pos k) as P. rewrite H in P. apply (Qlt_irrefl 0 P). Qed.

Lemma Qdiv_le_r (a b c : Q) : (0 < c)%Q -> (a <= b)%Q -> (a / c <= b / c)%Q.
Proof.
  intros Hc H. unfold Qdiv. apply Qmult_le_compat_r; [exact H|].
  apply Qlt_le_weak, Qinv_lt_0_compat, Hc.
Qed.

Lemma Qdiv_lt_r (a b c : Q) : (0 < c)%Q -> (a < b)%Q -> (a / c < b / c)%Q.
Proof.
  intros Hc H. unfold Qdiv. apply Qmult_lt_compat_r; [|exact H].
  apply Qinv_lt_0_compat, Hc.
Qed.

Lemma p2_div (a b : Z) : (2 ^ a / 2 ^ b == 2 ^ (a - b))%Q.
Proof.
  unfold Qdiv. replace (a - b)%Z with (a + - b)%Z by lia.
  rewrite p2_plus, p2_opp. reflexivity.
Qed.

Lemma p2_div_mul (x : Q) (k : Z) : (x / 2 ^ k * 2 ^ k == x)%Q.
Proof. field. apply p2_nz. Qed.

Lemma fl_val_nonneg (a : Q) : (0 < a)%Q -> (0 <= fl_val a)%Q.
Proof.
  intros Ha. unfold fl_val.
  apply Qmult_le_0_compat; [|apply Qlt_le_weak, p2_pos].
  change 0%Q with (inject_Z 0). rewrite <- Zle_Qle. apply rne_ge_int.
  unfold Qdiv. apply Qmult_le_0_compat; [apply Qlt_le_weak, Ha|].
  apply Qinv_le_0_compat, Qlt_le_weak, p2_pos.
Qed.

Lemma fl_val_mono (a b : Q) : (0 < a)%Q -> (a <= b)%Q -> (fl_val a <= fl_val b)%Q.
Proof.
  intros Ha Hab.
  assert (Hb : (0 < b)%Q) by (apply Qlt_le_trans with a; assumption).
  pose proof (floor_log2_mono a b Ha Hab) as He.
  destruct (floor_log2_spec a Ha) as [A1 A2]. destruct (floor_log2_spec b Hb) as [B1 B2].
  unfold fl_val, fl_exp.
  set (ea := floor_log2 a) in *. set (eb := floor_log2 b) in *.
  set (ka := Z.max (ea - 52) (-1074)). set (kb := Z.max (eb - 52) (-1074)).
  destruct (Z.eq_dec ka kb) as [Ek|Nk].
  - rewrite <- Ek. apply Qmult_le_compat_r; [|apply Qlt_le_weak, p2_pos].
    rewrite <- Zle_Qle. apply rne_mono. apply Qdiv_le_r; [apply p2_pos | exact Hab].
  - assert (Hkb : kb = (eb - 52)%Z) by lia.
    assert (Hlt : (ka < kb)%Z) by lia.
    apply Qle_trans with (2 ^ eb)%Q.
    + assert (Hm : (round_ne (a / 2 ^ ka) <= 2 ^ (eb - ka))%Z).
      { apply rne_lt_int. rewrite <- p2_Z by lia. rewrite <- p2_div.
        apply Qdiv_lt_r; [apply p2_pos|].
        apply Qlt_le_trans with (2 ^ (ea + 1))%Q; [exact A2 | apply p2_le; lia]. }
      apply Qle_trans with (inject_Z (2 ^ (eb - ka)) * 2 ^ ka)%Q.
      * apply Qmult_le_compat_r; [rewrite <- Zle_Qle; exact Hm | apply Qlt_le_weak, p2_pos].
      * rewrite <- p2_Z by lia. rewrite <- p2_plus.
        replace (eb - ka + ka)%Z with eb by lia. apply Qle_refl.
    + assert (Hm : (2 ^ (eb - kb) <= round_ne (b / 2 ^ kb))%Z).
      { apply rne_ge_int. rewrite <- p2_Z by lia. rewrite <- p2_div.
        apply Qdiv_le_r; [apply p2_pos | exact B1]. }
      apply Qle_trans with (inject_Z (2 ^ (eb - kb)) * 2 ^ kb)%Q.
      * rewrite <- p2_Z by lia. rewrite <- p2_plus.
        replace (eb - kb + kb)%Z with eb by lia. apply Qle_refl.
      * apply Qmult_le_compat_r; [rewrite <- Zle_Qle; exact Hm | apply Qlt_le_weak, p2_pos].
Qed.

Lemma fl_pos_shape (a : Q) : (0 < a)%Q ->
  fl_pos a = NInf false \/ exists r, fl_pos a = NFin r /\ (0 <= r)%Q.
Proof.
  intros Ha. unfold fl_pos. destruct (Qle_bool _ _); [left; reflexivity|].
  right. exists (fl_val a). split; [reflexivity | apply fl_val_nonneg, Ha].
Qed.

Lemma fl_pos_mono (a b : Q) : (0 < a)%Q -> (a <= b)%Q -> jle (fl_pos a) (fl_pos b).
Proof.
  intros Ha Hab. pose proof (fl_val_mono a b Ha Hab) as H.
  unfold fl_pos.
  destruct (Qle_bool (2 ^ 1024) (fl_val a)) eqn:E1;
    destruct (Qle_bool (2 ^ 1024) (fl_val b)) eqn:E2; cbn [jle]; auto.
  exfalso. apply Qle_bool_iff in E1.
  assert (Qle_bool (2 ^ 1024) (fl_val b) = true)
    by (apply Qle_bool_iff; apply Qle_trans with (fl_val a); assumption).
  congruence.
Qed.

Lemma jle_neg (x y : jsnum) : jle x y -> jle (dneg y) (dneg x).
Proof.
  destruct x as [p|[]|], y as [q|[]|]; cbn [jle dneg negb]; auto.
  intros H. lra.
Qed.

Lemma fl_mono (p q : Q) : (p <= q)%Q -> jle (fl p) (fl q).
Proof.
  intros H. unfold fl.
  destruct (Qcompare_spec p 0) as [Ep|Ep|Ep]; destruct (Qcompare_spec q 0) as [Eq|Eq|Eq];
    try (exfalso; lra).
  - cbn [jle]. lra.
  - destruct (fl_pos_shape q Eq) as [->|[r [-> Hr]]]; cbn [jle]; auto.
  - destruct (fl_pos_shape (- p) ltac:(lra)) as [->|[r [-> Hr]]]; cbn [jle dneg negb]; auto. lra.
  - apply jle_neg. apply fl_pos_mono; lra.
  - destruct (fl_pos_shape (- p) ltac:(lra)) as [->|[r [-> Hr]]];
      destruct (fl_pos_shape q Eq) as [->|[s [-> Hs]]]; cbn [jle dneg negb]; auto. lra.
  - apply fl_pos_mono; lra.
Qed.

Lemma fl_pos_Qeq (a b : Q) : (0 < a)%Q -> (a == b)%Q -> fl_pos a = fl_pos b.
Proof.
  intros Ha H. unfold fl_pos, fl_val, fl_exp.
  rewrite (floor_log2_Qeq a b Ha H).
  rewrite (rne_Qeq (a / 2 ^ Z.max (floor_log2 b - 52) (-1074))
                   (b / 2 ^ Z.max (floor_log2 b - 52) (-1074))) by (rewrite H; reflexivity).
  reflexivity.
Qed.

Lemma fl_Qeq (p q : Q) : (p == q)%Q -> fl p = fl q.
Proof.
  intros H. unfold fl.
  assert (E : (p ?= 0)%Q = (q ?= 0)%Q) by (rewrite H; reflexivity).
  rewrite E. destruct (Qcompare_spec q 0) as [Eq|Eq|Eq].
  - reflexivity.
  - f_equal. apply fl_pos_Qeq; lra.
  - apply fl_pos_Qeq; lra.
Qed.

Lemma fl_between (lo hi q : Q) :
  is_double lo = true -> is_double hi = true -> (lo <= q <= hi)%Q ->
  exists r, fl q = NFin r /\ (lo <= r <= hi)%Q.
Proof.
  intros Hlo Hhi [H1 H2]. unfold is_double in Hlo, Hhi.
  pose proof (fl_mono lo q H1) as M1. pose proof (fl_mono q hi H2) as M2.
  destruct (fl lo) as [l| |]; [|discriminate|discriminate].
  destruct (fl hi) as [h| |]; [|discriminate|discriminate].
  apply Qeq_bool_iff in Hlo. apply Qeq_bool_iff in Hhi.
  destruct (fl q) as [r|[]|]; cbn [jle] in M1, M2; try contradiction.
  exists r. split; [reflexivity|]. split.
  - rewrite <- Hlo. exact M1.
  - rewrite <- Hhi. exact M2.
Qed.

Lemma fl_pos_exact (a : Q) (m : Z) :
  (0 < a)%Q -> (a < 2 ^ 1024)%Q -> (a / 2 ^ fl_exp a == inject_Z m)%Q ->
  exists r, fl_pos a = NFin r /\ (r == a)%Q.
Proof.
  intros Ha Hb Hm.
  assert (Hv : (fl_val a == a)%Q).
  { unfold fl_val. rewrite (rne_Qeq _ _ Hm), rne_int. rewrite <- Hm. apply p2_div_mul. }
  exists (fl_val a). split; [|exact Hv].
  unfold fl_pos. destruct (Qle_bool (2 ^ 1024) (fl_val a)) eqn:E; [|reflexivity].
  exfalso. apply Qle_bool_iff in E. rewrite Hv in E. lra.
Qed.

Lemma fl_int (z : Z) : (0 <= z <= 2 ^ 53)%Z ->
  exists r, fl (inject_Z z) = NFin r /\ (r == inject_Z z)%Q.
Proof.
  intros Hz. destruct (Z.eq_dec z 0%Z) as [->|Hz0].
  { exists 0%Q. split; reflexivity. }
  assert (Hpos : (0 < inject_Z z)%Q) by (change 0%Q with (inject_Z 0); rewrite <- Zlt_Qlt; lia).
  unfold fl. destruct (Qcompare_spec (inject_Z z) 0) as [E|E|E]; try (exfalso; lra).
  pose proof (Z.log2_spec z ltac:(lia)) as [L1 L2].
  pose proof (Z.log2_nonneg z) as L0.
  set (e := Z.log2 z) in *.
  assert (Hle : (e <= 53)%Z).
  { unfold e. rewrite <- (Z.log2_pow2 53) by lia. apply Z.log2_le_mono. lia. }
  assert (Hf : floor_log2 (inject_Z z) = e).
  { apply floor_log2_unique.
    - rewrite (p2_Z e L0). rewrite <- Zle_Qle. exact L1.
    - rewrite (p2_Z (e + 1)) by lia. rewrite <- Zlt_Qlt. exact L2. }
  assert (Hk : fl_exp (inject_Z z) = (e - 52)%Z) by (unfold fl_exp; rewrite Hf; lia).
  assert (Hsmall : (inject_Z z < 2 ^ 1024)%Q).
  { apply Qle_lt_trans with (2 ^ 53)%Q.
    - rewrite (p2_Z 53) by lia. rewrite <- Zle_Qle. lia.
    - apply p2_lt. lia. }
  destruct (Z.eq_dec e 53%Z) as [E53|N53].
  - assert (Hz53 : z = (2 ^ 53)%Z) by (rewrite E53 in L1; lia).
    apply (fl_pos_exact _ (2 ^ 52)%Z Hpos Hsmall).
    rewrite Hk, E53, Hz53. reflexivity.
  - apply (fl_pos_exact _ (z * 2 ^ (52 - e))%Z Hpos Hsmall).
    rewrite Hk. unfold Qdiv. replace (e - 52)%Z with (- (52 - e))%Z by lia.
    rewrite p2_opp, Qinv_involutive, (p2_Z (52 - e)) by lia.
    rewrite inject_Z_mult. reflexivity.
Qed.

Lemma is_double_0 : is_double 0 = true. Proof. reflexivity. Qed.

(** C1 (code_bug).  [weightedSkillsScore0to100] does not map the
    un-rounded average: it hands [avg] to [score1to9_to_0to100], whose
    [clampInt] rounds it to an integer level first.  Scores 1 and 2 with
    equal weights average 1.5, which the code rounds to level 2 (score
    13) where [round(((avg-1)/8)*100)] of the claim gives 6. *)
Theorem weightedSkillsScore0to100_rounds_first :
  weightedSkillsScore0to100 [scored "A" 1; scored "B" 2]
    [{| name := "A"; weight := 1 |}; {| name := "B"; weight := 1 |}] = 13%Z /\
  spec_weighted_score [scored "A" 1; scored "B" 2]
    [{| name := "A"; weight := 1 |}; {| name := "B"; weight := 1 |}] = 6%Z.
Proof. vm_compute. split; reflexivity. Qed.

(** The sums are rounded to doubles: with weights [0.1], scores 2 and 5
    give the double average 3.4999999999999996, level 3 and score 25. *)
Lemma weightedSkillsScore0to100_double_average :
  weightedSkillsScore0to100 [scored "A" 2; scored "B" 5]
    [{| name := "A"; weight := 3602879701896397 # 36028797018963968 |};
     {| name := "B"; weight := 3602879701896397 # 36028797018963968 |}] = 25%Z.
Proof. vm_compute. reflexivity. Qed.

(** ** The normalizer: C2 and C8 *)

Lemma bindR_Ok {A B : Type} (m : js_result A) (f : A -> js_result B) (b : B) :
  bindR m f = Ok b -> exists a, m = Ok a /\ f a = Ok b.
Proof. destruct m; simpl; [eauto|discriminate]. Qed.

Lemma mapR_Ok {A B : Type} (f : A -> js_result B) (l : list A) (l' : list B) :
  mapR f l = Ok l' -> Forall2 (fun x y => f x = Ok y) l l'.
Proof.
  revert l'. induction l as [|x l IH]; simpl; intros l' H.
  - injection H as <-. constructor.
  - apply bindR_Ok in H as [y [Hy H]]. apply bindR_Ok in H as [ys [Hys H]].
    injection H as <-. constructor; auto.
Qed.

Ltac peel_binds :=
  repeat match goal with
  | H : bindR _ _ = Ok _ |- _ => apply bindR_Ok in H; destruct H as [? [? H]]
  end.

Lemma present_skill_score_ok (nts : Q -> string) (nm : string) (x st : jsval)
    (r : skill_score) :
  present_skill_score nts nm x st = Ok r -> skill r = nm /\ (1 <= score_1_to_9 r <= 9)%Z.
Proof.
  unfold present_skill_score. intros H. peel_binds. injection H as <-. simpl.
  split; [reflexivity|].
  match goal with
  | Hc : clampInt _ _ 1 9 = Ok _ |- _ =>
      apply clampInt_range_idempotent in Hc; exact (proj1 Hc)
  end.
Qed.

Lemma Forall2_map_eq {A B : Type} (f : B -> A) (l : list A) (l' : list B) :
  Forall2 (fun x y => f y = x) l l' -> map f l' = l.
Proof. induction 1; simpl; congruence. Qed.

(** Whenever [normalizeAssessorResult] returns, its skill entries follow
    the matrix skill names one for one and every score lies in [1,9]. *)
Lemma normalizeAssessorResult_complete (nts : Q -> string) (m : matrix) (raw st : jsval)
    (res : assessment) :
  normalizeAssessorResult nts m raw st = Ok res ->
  map skill (skill_scores res) = map name (skills m) /\
  Forall (fun r => 1 <= score_1_to_9 r <= 9)%Z (skill_scores res) /\
  (1 <= exercise_score_1_to_9 res <= 9)%Z.
Proof.
  unfold normalizeAssessorResult. intros H.
  apply bindR_Ok in H as [ss [_ H]].
  apply bindR_Ok in H as [entries [_ H]].
  apply bindR_Ok in H as [scores [Hs H]].
  peel_binds. injection H as <-. simpl.
  apply mapR_Ok in Hs.
  assert (Hf : Forall2 (fun nm r => skill r = nm /\ (1 <= score_1_to_9 r <= 9)%Z)
                 (map name (skills m)) scores).
  { eapply Forall2_impl; [exact Hs|]. intros nm r Hr. cbv beta in Hr.
    destruct (map_get entries nm) as [xe|]; [destruct (truthy xe)|].
    - eapply present_skill_score_ok; eauto.
    - injection Hr as <-. simpl. split; [reflexivity|lia].
    - injection Hr as <-. simpl. split; [reflexivity|lia]. }
  split; [|split].
  - apply Forall2_map_eq. eapply Forall2_impl; [exact Hf|]. intros ? ? [? ?]; auto.
  - clear Hs. induction Hf; constructor; [tauto|assumption].
  - match goal with
    | Hc : clampInt _ _ 1 9 = Ok _ |- _ =>
        apply clampInt_range_idempotent in Hc; exact (proj1 Hc)
    end.
Qed.

(** C2 (code_bug).  A raw result holding [null] in its [skill_scores]
    array, or a raw result that is [null] itself, makes the normalizer
    throw a TypeError instead of returning a matrix-complete result. *)
Theorem normalizeAssessorResult_null_throws (nts : Q -> string) :
  normalizeAssessorResult nts {| role := "AI Engineer";
      skills := [{| name := "A"; weight := 1 |}] |}
    (JObj [("skill_scores", JArr [JNull])]) (JStr "strict") = Throw type_error /\
  normalizeAssessorResult nts {| role := "AI Engineer";
      skills := [{| name := "A"; weight := 1 |}] |}
    JNull (JStr "strict") = Throw type_error.
Proof. split; reflexivity. Qed.

Lemma Forall2_nth_error {A B : Type} (P : A -> B -> Prop) (l : list A) (l' : list B)
    (i : nat) (x : A) :
  Forall2 P l l' -> nth_error l i = Some x -> exists y, nth_error l' i = Some y /\ P x y.
Proof.
  intros HF. revert i. induction HF as [|a b l l' Hab HF IH]; intros i Hi.
  - destruct i; discriminate Hi.
  - destruct i as [|i]; simpl in *; [injection Hi as <-; eauto|]. apply IH, Hi.
Qed.

Lemma Forall2_In_r {A B : Type} (P : A -> B -> Prop) (l : list A) (l' : list B) (y : B) :
  Forall2 P l l' -> In y l' -> exists x, In x l /\ P x y.
Proof.
  induction 1 as [|a b l l' Hab HF IH]; simpl; [tauto|].
  intros [<-|Hy]; [eauto|]. destruct (IH Hy) as [x [Hx Hp]]. eauto.
Qed.

Lemma find_all_false {A : Type} (f : A -> bool) (l : list A) :
  (forall x, In x l -> f x = false) -> find f l = None.
Proof.
  induction l as [|a l IH]; simpl; intros H; [reflexivity|].
  rewrite H by auto. apply IH. auto.
Qed.

(** C8.  For a matrix skill with no raw entry of that trimmed name, the
    normalized result holds, at that skill's position, the synthesized
    entry: score 1, confidence "low", the single "no evidence" bullet,
    two generic risks and two generic follow-ups (whenever the
    normalizer returns). *)
Theorem normalizeAssessorResult_missing_default (nts : Q -> string) (m : matrix)
    (raw st : jsval) (res : assessment) (i : nat) (nm : string) :
  normalizeAssessorResult nts m raw st = Ok res ->
  nth_error (map name (skills m)) i = Some nm ->
  absent_from nts raw nm ->
  exists r, nth_error (skill_scores res) i = Some r /\
    skill r = nm /\ score_1_to_9 r = 1%Z /\
    confidence_low_med_high r = JStr "low" /\
    evidence_bullets r = [JStr "No evidence captured for this skill."] /\
    List.length (risks r) = 2%nat /\ List.length (followups r) = 2%nat /\
    r = default_skill_score nm st.
Proof.
  unfold normalizeAssessorResult. intros H Hnm Habs.
  apply bindR_Ok in H as [ss [Hss H]].
  apply bindR_Ok in H as [entries [He H]].
  apply bindR_Ok in H as [scores [Hs H]].
  peel_binds. injection H as <-. simpl.
  apply mapR_Ok in Hs, He.
  destruct (Forall2_nth_error _ _ _ _ _ Hs Hnm) as [r [Hr Hmk]].
  exists r. split; [exact Hr|].
  assert (Hnone : map_get entries nm = None).
  { unfold map_get. rewrite find_all_false; [reflexivity|].
    intros [k y] Hin. apply in_rev in Hin. simpl.
    destruct (Forall2_In_r _ _ _ _ He Hin) as [xe [Hx Hk]].
    destruct ss as [| | | | |l|]; try contradiction.
    apply String.eqb_neq. eapply Habs; eauto. }
  cbv beta in Hmk. rewrite Hnone in Hmk. injection Hmk as <-.
  simpl. repeat split.
Qed.

Lemma normalizeAssessorResult_missing_default_witness :
  let m := {| role := "AI Engineer";
              skills := [{| name := "A"; weight := 1 |}; {| name := "B"; weight := 1 |}] |} in
  let raw := JObj [("skill_scores",
               JArr [JObj [("skill", JStr " A "); ("score_1_to_9", JNum (NFin 7))]])] in
  exists res,
    normalizeAssessorResult (fun _ => "") m raw (JStr "strict") = Ok res /\
    nth_error (map name (skills m)) 1 = Some "B" /\
    absent_from (fun _ => "") raw "B" /\
    exists r, nth_error (skill_scores res) 1 = Some r /\
      skill r = "B" /\ score_1_to_9 r = 1%Z /\
      confidence_low_med_high r = JStr "low" /\
      evidence_bullets r = [JStr "No evidence captured for this skill."] /\
      List.length (risks r) = 2%nat /\ List.length (followups r) = 2%nat /\
      r = default_skill_score "B" (JStr "strict").
Proof.
  intros m raw.
  destruct (normalizeAssessorResult (fun _ => "") m raw (JStr "strict")) as [res|e] eqn:E;
    [|vm_compute in E; discriminate E].
  assert (Habs : absent_from (fun _ => "") raw "B").
  { intros l xe k y Hl Hx Hk. injection Hl as <-. destruct Hx as [<-|[]].
    vm_compute in Hk. injection Hk as <- _. discriminate. }
  assert (Hn : nth_error (map name (skills m)) 1 = Some "B") by reflexivity.
  exists res. split; [reflexivity|]. split; [exact Hn|]. split; [exact Habs|].
  exact (normalizeAssessorResult_missing_default (fun _ => "") m raw (JStr "strict")
           res 1 "B" E Hn Habs).
Defined.

(** ** C7: disagreement rows *)

Section CompareMultiProofs.

Import CompareMulti.

Lemma insert_row_perm (x : row) (l : list row) : Permutation (insert_row x l) (x :: l).
Proof.
  induction l as [|y l IH]; simpl; [reflexivity|].
  destruct (Z.leb (spread y) (spread x)); [reflexivity|].
  rewrite IH. apply perm_swap.
Qed.

Lemma sort_rows_perm (l : list row) : Permutation (sort_rows l) l.
Proof.
  induction l as [|x l IH]; simpl; [reflexivity|].
  rewrite insert_row_perm, IH. reflexivity.
Qed.

Lemma insert_row_hd (x y : row) (l : list row) :
  desc y x -> HdRel desc y l -> HdRel desc y (insert_row x l).
Proof.
  intros Hyx Hl. destruct l as [|z l]; simpl; [now constructor|].
  destruct (Z.leb (spread z) (spread x)); constructor; [exact Hyx|].
  now inversion Hl.
Qed.

Lemma insert_row_sorted (x : row) (l : list row) :
  Sorted desc l -> Sorted desc (insert_row x l).
Proof.
  induction l as [|y l IH]; simpl; intros Hs; [now repeat constructor|].
  case_eq (Z.leb (spread y) (spread x)); intros Hxy.
  - constructor; [exact Hs|]. constructor. unfold desc. apply Z.leb_le, Hxy.
  - inversion Hs as [|? ? Hl Hhd]; subst. constructor; [now apply IH|].
    apply insert_row_hd; [|exact Hhd]. unfold desc.
    apply Z.leb_gt in Hxy. lia.
Qed.

Lemma sort_rows_sorted (l : list row) : Sorted desc (sort_rows l).
Proof.
  induction l as [|x l IH]; simpl; [constructor|]. now apply insert_row_sorted.
Qed.

Lemma insert_row_filter (k : Z) (x : row) (l : list row) :
  List.filter (fun r => Z.eqb (spread r) k) (insert_row x l) =
  List.filter (fun r => Z.eqb (spread r) k) (x :: l).
Proof.
  induction l as [|y l IH]; simpl; [reflexivity|].
  case_eq (Z.leb (spread y) (spread x)); intros Hxy; [reflexivity|].
  simpl. rewrite IH. simpl. apply Z.leb_gt in Hxy.
  case_eq (Z.eqb (spread y) k); intros Hy; [|reflexivity].
  apply Z.eqb_eq in Hy. rewrite (proj2 (Z.eqb_neq (spread x) k)) by lia.
  reflexivity.
Qed.

Lemma sort_rows_filter (k : Z) (l : list row) :
  List.filter (fun r => Z.eqb (spread r) k) (sort_rows l) =
  List.filter (fun r => Z.eqb (spread r) k) l.
Proof.
  induction l as [|x l IH]; simpl; [reflexivity|].
  rewrite insert_row_filter. simpl. rewrite IH. reflexivity.
Qed.

End CompareMultiProofs.

(** C7.  [compareMulti] returns the rows built for the first result's
    skills (one per skill, a result lacking the skill scoring 1, spread
    = max - min), reordered in descending order of spread; rows of equal
    spread keep their original order; [biggest_disagreements] is the
    first 5 sorted rows. *)
Theorem compareMulti_sorted_stable (results : list assessment) :
  let out := CompareMulti.compareMulti results in
  Permutation (CompareMulti.rows out) (CompareMulti.build_rows results) /\
  Sorted (fun a b => (CompareMulti.spread b <= CompareMulti.spread a)%Z)
    (CompareMulti.rows out) /\
  (forall k, List.filter (fun r => Z.eqb (CompareMulti.spread r) k) (CompareMulti.rows out) =
             List.filter (fun r => Z.eqb (CompareMulti.spread r) k)
               (CompareMulti.build_rows results)) /\
  CompareMulti.biggest_disagreements out = firstn 5 (CompareMulti.rows out) /\
  map CompareMulti.skill (CompareMulti.build_rows results) =
    match results with [] => [] | r0 :: _ => map skill (skill_scores r0) end /\
  Forall (fun r => CompareMulti.scores r = map (CompareMulti.found_score (CompareMulti.skill r)) results /\
                   CompareMulti.spread r = (CompareMulti.max r - CompareMulti.min r)%Z)
    (CompareMulti.rows out).
Proof.
  intros out. split; [apply sort_rows_perm|].
  split; [apply sort_rows_sorted|].
  split; [intros k; apply sort_rows_filter|].
  split; [reflexivity|].
  split.
  - destruct results as [|r0 rest]; [reflexivity|]. simpl.
    rewrite map_map. simpl. apply map_id.
  - apply List.Forall_forall. intros r Hr.
    apply (Permutation_in _ (sort_rows_perm _)) in Hr.
    destruct results as [|r0 rest]; [destruct Hr|]. simpl in Hr.
    apply in_map_iff in Hr as [sk [<- _]]. split; reflexivity.
Qed.

(** ** C5: retries of [callChatJSON] *)

Lemma backoff_step (i : nat) :
  Z.min (Z.min (450 * 2 ^ Z.of_nat i) 5000 * 2) 5000 = Z.min (450 * 2 ^ Z.of_nat (S i)) 5000.
Proof.
  rewrite Nat2Z.inj_succ, Z.pow_succ_r by lia.
  pose proof (Z.pow_pos_nonneg 2 (Z.of_nat i) ltac:(lia) ltac:(lia)). lia.
Qed.

Lemma retry_loop_spec (json_parse : string -> js_result jsval)
    (env : nat -> chat_outcome * chat_outcome) (fuel attempt maxA : nat) (delay : Z) :
  (1 <= attempt)%nat -> (attempt + fuel = S maxA)%nat -> (1 <= fuel)%nat ->
  delay = Z.min (450 * 2 ^ Z.of_nat (attempt - 1)) 5000 ->
  exists k, (attempt <= k <= maxA)%nat /\
    (forall i, (attempt <= i < k)%nat ->
       exists m, run_attempt json_parse env i = Throw m /\ is_transient m = true) /\
    snd (retry_loop json_parse env fuel attempt maxA delay) =
      map (fun i => Z.min (450 * 2 ^ Z.of_nat i) 5000) (seq (attempt - 1) (k - attempt)) /\
    match run_attempt json_parse env k with
    | Ok v => fst (retry_loop json_parse env fuel attempt maxA delay) = Ok v
    | Throw m => fst (retry_loop json_parse env fuel attempt maxA delay) = Throw m /\
                 (k = maxA \/ is_transient m = false)
    end.
Proof.
  revert attempt delay.
  induction fuel as [|fuel IH]; intros attempt delay H1 Hsum Hf Hd; [lia|].
  simpl. case_eq (run_attempt json_parse env attempt); [intros v Hv|intros msg Hm].
  - exists attempt. split; [lia|]. split; [intros i Hi; lia|].
    rewrite Nat.sub_diag, Hv. split; reflexivity.
  - case_eq (Nat.eqb attempt maxA || negb (is_transient msg)); intros Hc.
    + exists attempt. split; [lia|]. split; [intros i Hi; lia|].
      rewrite Nat.sub_diag, Hm. split; [reflexivity|]. split; [reflexivity|].
      apply orb_true_iff in Hc as [Hc|Hc]; [left; apply Nat.eqb_eq, Hc|].
      right. now apply negb_true_iff.
    + apply orb_false_iff in Hc as [Hne Ht]. apply Nat.eqb_neq in Hne.
      apply negb_false_iff in Ht.
      destruct (IH (S attempt) (Z.min (delay * 2) 5000)) as [k [Hk [Hpre [Hs Hlast]]]];
        [lia|lia|lia| |].
      { rewrite Hd. replace (S attempt - 1)%nat with (S (attempt - 1)) by lia.
        apply backoff_step. }
      destruct (retry_loop json_parse env fuel (S attempt) maxA (Z.min (delay * 2) 5000))
        as [r sleeps] eqn:E.
      simpl in *. exists k. split; [lia|]. split.
      * intros i Hi. destruct (Nat.eq_dec i attempt) as [->|Hi'];
          [eauto|apply Hpre; lia].
      * split; [|exact Hlast].
        replace (k - attempt)%nat with (S (k - S attempt)) by lia. simpl.
        rewrite Hs, Hd. replace (S (attempt - 1)) with attempt by lia.
        replace (attempt - 0)%nat with attempt by lia. reflexivity.
Qed.

(** C5.  With at least one attempt allowed, [callChatJSON] makes attempts
    1..k for some k <= maxAttempts: every attempt before k failed with a
    transient message (429, rate limit, timeout, temporarily, fetch failed,
    empty content); it slept min(450 * 2^i, 5000) ms after the i-th of
    them (counting from 0), that is 450 doubling up to the 5000 cap; and
    attempt k either returned its parsed value or failed with a message
    that was fatal or came at the last attempt, which it throws as is,
    with no further attempt. *)
Theorem callChatJSON_retry (json_parse : string -> js_result jsval)
    (env : nat -> chat_outcome * chat_outcome) (maxAttempts : nat) :
  (1 <= maxAttempts)%nat ->
  exists k, (1 <= k <= maxAttempts)%nat /\
    (forall i, (1 <= i < k)%nat ->
       exists m, run_attempt json_parse env i = Throw m /\ is_transient m = true) /\
    snd (callChatJSON json_parse env maxAttempts) =
      map (fun i => Z.min (450 * 2 ^ Z.of_nat i) 5000) (seq 0 (k - 1)) /\
    match run_attempt json_parse env k with
    | Ok v => fst (callChatJSON json_parse env maxAttempts) = Ok v
    | Throw m => fst (callChatJSON json_parse env maxAttempts) = Throw m /\
                 (k = maxAttempts \/ is_transient m = false)
    end.
Proof.
  intros H. unfold callChatJSON.
  apply (retry_loop_spec json_parse env maxAttempts 1 maxAttempts 450); [lia|lia|lia|].
  reflexivity.
Qed.

Lemma callChatJSON_retry_witness :
  let json_parse := fun s => if String.eqb s "{}" then Ok (JObj []) else Throw "Unexpected token" in
  let env := fun i => match i with
                      | 1%nat => (ChatErr "429 Too Many Requests", ChatOk "")
                      | 2%nat => (ChatOk "  ", ChatOk "")
                      | _ => (ChatOk "```json {} ```", ChatOk "")
                      end in
  (1 <= 3)%nat /\
  callChatJSON json_parse env 3 = (Ok (JObj []), [450%Z; 900%Z]) /\
  exists k, (1 <= k <= 3)%nat /\
    (forall i, (1 <= i < k)%nat ->
       exists m, run_attempt json_parse env i = Throw m /\ is_transient m = true) /\
    snd (callChatJSON json_parse env 3) =
      map (fun i => Z.min (450 * 2 ^ Z.of_nat i) 5000) (seq 0 (k - 1)) /\
    match run_attempt json_parse env k with
    | Ok v => fst (callChatJSON json_parse env 3) = Ok v
    | Throw m => fst (callChatJSON json_parse env 3) = Throw m /\
                 (k = 3%nat \/ is_transient m = false)
    end.
Proof.
  intros json_parse env. split; [lia|]. split; [vm_compute; reflexivity|].
  apply (callChatJSON_retry json_parse env 3). lia.
Defined.

(** ** C6: session invariants and deletion on finish *)

Section FlowProofs.

Variable MAX : Z.
Variable nts : Q -> string.
Hypothesis MAX_nonneg : (0 <= MAX)%Z.

Lemma current_question_idx (s : session) (p : string * string) :
  current_question nts s = Ok p -> (idx s < List.length (planQuestions s))%nat.
Proof.
  unfold current_question. destruct (nth_error (planQuestions s) (idx s)) eqn:E;
    [intros _|discriminate].
  apply nth_error_Some. congruence.
Qed.

Lemma advance_ok (s : session) :
  (idx s < List.length (planQuestions s))%nat -> session_ok (fst (advance MAX s)).
Proof.
  intros H. unfold advance.
  destruct (nth_error _ _); simpl; split; simpl; lia.
Qed.

Lemma answer_step_ok (s : session) (a : string) (d : js_result jsval) :
  session_ok s -> session_ok (fst (answer_step MAX nts s a d)).
Proof.
  intros [Hf Hi]. unfold answer_step.
  destruct (current_question nts s) as [[skillName question]|m] eqn:Eq;
    [|split; assumption].
  apply current_question_idx in Eq.
  case_eq (Z.ltb 0 (followupsLeft s) && negb (String.eqb (js_trim a) "")
           && negb (String.eqb (js_trim a) "[SKIPPED]")); intros Hc; simpl in Hc |- *;
    rewrite Hc; [|now apply advance_ok].
  apply andb_true_iff in Hc as [Hc _]. apply andb_true_iff in Hc as [Hc _].
  apply Z.ltb_lt in Hc.
  destruct (decideFollowup MAX d) as [[need fq]|m]; [|split; simpl; lia].
  destruct (need && truthy fq); [split; simpl; lia|now apply advance_ok].
Qed.

Lemma exec_ok (reg : gmap string session) (o : op) :
  map_Forall (fun _ s => session_ok s) reg ->
  map_Forall (fun _ s => session_ok s) (fst (exec MAX nts reg o)).
Proof.
  intros H. destruct o as [id name plan|id a d|id reply|id reply|id asm]; simpl.
  - destruct (buildInterviewPlan plan); simpl; [|exact H].
    apply map_Forall_insert_2; [split; simpl; lia|exact H].
  - destruct (reg !! id) as [s|] eqn:E; [|exact H].
    pose proof (answer_step_ok s a d (H id s E)) as Hs.
    destruct (answer_step MAX nts s a d) as [s' r]. simpl in *.
    apply map_Forall_insert_2; assumption.
  - destruct (reg !! id); [destruct (nth_error _ _)|]; exact H.
  - destruct (reg !! id); exact H.
  - destruct (reg !! id); [destruct asm|]; simpl; try exact H.
    now apply map_Forall_delete.
Qed.

Lemma run_ok (reg : gmap string session) (ops : list op) :
  map_Forall (fun _ s => session_ok s) reg ->
  map_Forall (fun _ s => session_ok s) (fst (run MAX nts reg ops)).
Proof.
  revert reg. induction ops as [|o ops IH]; intros reg H; simpl; [exact H|].
  pose proof (exec_ok reg o H) as H1.
  destruct (exec MAX nts reg o) as [reg1 r]. simpl in H1.
  specialize (IH reg1 H1). destruct (run MAX nts reg1 ops). exact IH.
Qed.

Lemma exec_absent (reg : gmap string session) (id : string) (o : op) :
  reg !! id = None -> is_start o = false \/ op_session o <> id ->
  fst (exec MAX nts reg o) !! id = None /\
  (op_session o = id -> exists msg, snd (exec MAX nts reg o) = RErr 400 msg).
Proof.
  intros H Ho. destruct o as [id' name plan|id' a d|id' reply|id' reply|id' asm]; simpl in *.
  - destruct Ho as [Ho|Ho]; [discriminate|].
    split; [|intros; contradiction].
    destruct (buildInterviewPlan plan); simpl; [|exact H].
    rewrite lookup_insert_ne by congruence. exact H.
  - destruct (String.eq_dec id' id) as [->|Hne].
    + rewrite H. simpl. split; [exact H|eauto].
    + split; [|intros; contradiction].
      destruct (reg !! id') as [s|]; [|exact H].
      destruct (answer_step MAX nts s a d). simpl.
      rewrite lookup_insert_ne by congruence. exact H.
  - destruct (String.eq_dec id' id) as [->|Hne].
    + rewrite H. simpl. split; [exact H|eauto].
    + split; [|intros; contradiction].
      destruct (reg !! id'); [destruct (nth_error _ _)|]; exact H.
  - destruct (String.eq_dec id' id) as [->|Hne].
    + rewrite H. simpl. split; [exact H|eauto].
    + split; [|intros; contradiction]. destruct (reg !! id'); exact H.
  - destruct (String.eq_dec id' id) as [->|Hne].
    + rewrite H. simpl. split; [exact H|eauto].
    + split; [|intros; contradiction].
      destruct (reg !! id'); [destruct asm|]; simpl; try exact H.
      rewrite lookup_delete_ne by congruence. exact H.
Qed.

Lemma run_absent (reg : gmap string session) (id : string) (ops : list op) :
  reg !! id = None -> Forall (fun o => is_start o = false \/ op_session o <> id) ops ->
  fst (run MAX nts reg ops) !! id = None /\
  Forall2 (fun o r => op_session o = id -> exists msg, r = RErr 400 msg)
    ops (snd (run MAX nts reg ops)).
Proof.
  revert reg. induction ops as [|o ops IH]; intros reg H Hops; simpl.
  - split; [exact H|constructor].
  - inversion Hops as [|? ? Ho Hrest]; subst.
    destruct (exec_absent reg id o H Ho) as [H1 Hr].
    destruct (exec MAX nts reg o) as [reg1 r]. simpl in H1, Hr.
    destruct (IH reg1 H1 Hrest) as [H2 Hrs].
    destruct (run MAX nts reg1 ops) as [reg2 rs]. simpl in *.
    split; [exact H2|constructor; assumption].
Qed.

End FlowProofs.

(** C6.  With a non-negative follow-up setting, every session of the
    registry reached by any sequence of requests from an empty registry
    has a non-negative follow-up budget and a cursor at most the plan
    length.  A successful finish deletes the session: through any later
    requests that do not start a session under the same id, the id
    stays absent from the registry and every request on it is answered
    with a 400 "not found" error. *)
Theorem session_invariants (MAX : Z) (nts : Q -> string) :
  (0 <= MAX)%Z ->
  (forall ops, map_Forall (fun _ s => (0 <= followupsLeft s)%Z /\
                                      (idx s <= List.length (planQuestions s))%nat)
                 (fst (run MAX nts ∅ ops))) /\
  (forall reg id s ops,
     reg !! id = Some s ->
     Forall (fun o => is_start o = false \/ op_session o <> id) ops ->
     snd (exec MAX nts reg (Finish id (Ok tt))) = ROk (JObj []) /\
     fst (run MAX nts (fst (exec MAX nts reg (Finish id (Ok tt)))) ops) !! id = None /\
     Forall2 (fun o r => op_session o = id -> exists msg, r = RErr 400 msg)
       ops (snd (run MAX nts (fst (exec MAX nts reg (Finish id (Ok tt)))) ops))).
Proof.
  intros HM. split.
  - intros ops. apply (run_ok MAX nts HM). apply map_Forall_empty.
  - intros reg id s ops Hs Hops. simpl. rewrite Hs. simpl.
    split; [reflexivity|]. apply run_absent; [|exact Hops].
    apply lookup_delete_eq.
Qed.

Lemma session_invariants_witness :
  let plan := Ok (JObj [("questions", JArr [JObj [("skill", JStr "A"); ("question", JStr "Q?")]])]) in
  let ops := [Start "s1" "Ada" plan;
              Answer "s1" "I used tools." (Ok (JObj [("need_followup", JBool true);
                                                    ("followup_question", JStr "Which?")]));
              Answer "s1" "pytest" (Ok (JObj [("need_followup", JBool false)]));
              Finish "s1" (Ok tt);
              Answer "s1" "again" (Ok JNull)] in
  nth_error (snd (run 1 (fun _ => "") ∅ ops)) 4 =
    Some (RErr 400 "Session not found. Start again.") /\
  (0 <= 1)%Z /\
  ((forall ops, map_Forall (fun _ s => (0 <= followupsLeft s)%Z /\
                                       (idx s <= List.length (planQuestions s))%nat)
                  (fst (run 1 (fun _ => "") ∅ ops))) /\
   (forall reg id s ops,
      reg !! id = Some s ->
      Forall (fun o => is_start o = false \/ op_session o <> id) ops ->
      snd (exec 1 (fun _ => "") reg (Finish id (Ok tt))) = ROk (JObj []) /\
      fst (run 1 (fun _ => "") (fst (exec 1 (fun _ => "") reg (Finish id (Ok tt)))) ops)
        !! id = None /\
      Forall2 (fun o r => op_session o = id -> exists msg, r = RErr 400 msg)
        ops (snd (run 1 (fun _ => "") (fst (exec 1 (fun _ => "") reg (Finish id (Ok tt)))) ops)))).
Proof.
  intros plan ops. split; [vm_compute; reflexivity|]. split; [lia|].
  apply (session_invariants 1 (fun _ => "")). lia.
Defined.

(** ** C3: a failed follow-up decision *)

(** C3 (amended).  When [/api/answer] asks for a follow-up decision and
    the decision fails (the model call throws, or its value is [null]),
    the request answers 500 with the error's message and leaves the
    cursor and the follow-up budget as they were, but the answer has
    already been appended to the transcript and stays there. *)
Theorem answer_decision_failure (MAX : Z) (nts : Q -> string) (reg : gmap string session)
    (id answer : string) (s : session) (decision : js_result jsval)
    (skillName question m : string) :
  reg !! id = Some s ->
  current_question nts s = Ok (skillName, question) ->
  (0 < followupsLeft s)%Z ->
  js_trim answer <> "" -> js_trim answer <> "[SKIPPED]" ->
  decideFollowup MAX decision = Throw m ->
  snd (exec MAX nts reg (Answer id answer decision)) = RErr 500 m /\
  exists s', fst (exec MAX nts reg (Answer id answer decision)) !! id = Some s' /\
    idx s' = idx s /\ followupsLeft s' = followupsLeft s /\
    planQuestions s' = planQuestions s /\
    transcript s' = (transcript s ++
      [{| qa_skill := skillName; qa_question := question; qa_answer := answer |}])%list.
Proof.
  intros Hs Hq Hf Ha1 Ha2 Hd. simpl. rewrite Hs. unfold answer_step. rewrite Hq.
  simpl. rewrite (proj2 (Z.ltb_lt 0 (followupsLeft s)) Hf).
  rewrite (proj2 (String.eqb_neq _ _) Ha1), (proj2 (String.eqb_neq _ _) Ha2). simpl.
  rewrite Hd. simpl. split; [reflexivity|].
  eexists. rewrite lookup_insert_eq. split; [reflexivity|]. repeat split.
Qed.

Lemma answer_decision_failure_witness :
  let s := {| candidateName := "Ada";
              planQuestions := [JObj [("skill", JStr "A"); ("question", JStr "Q?")]];
              idx := 0; transcript := []; followupsLeft := 1 |} in
  ({[ "s1" := s ]} : gmap string session) !! "s1" = Some s /\
  current_question (fun _ => "") s = Ok ("A", "Q?") /\
  (0 < followupsLeft s)%Z /\
  js_trim "I used pytest." <> "" /\ js_trim "I used pytest." <> "[SKIPPED]" /\
  decideFollowup 1 (Throw "fetch failed") = Throw "fetch failed" /\
  (snd (exec 1 (fun _ => "") {[ "s1" := s ]} (Answer "s1" "I used pytest." (Throw "fetch failed")))
     = RErr 500 "fetch failed" /\
   exists s', fst (exec 1 (fun _ => "") {[ "s1" := s ]}
                    (Answer "s1" "I used pytest." (Throw "fetch failed"))) !! "s1" = Some s' /\
     idx s' = idx s /\ followupsLeft s' = followupsLeft s /\
     planQuestions s' = planQuestions s /\
     transcript s' = (transcript s ++
       [{| qa_skill := "A"; qa_question := "Q?"; qa_answer := "I used pytest." |}])%list).
Proof.
  intros s.
  assert (H1 : ({[ "s1" := s ]} : gmap string session) !! "s1" = Some s)
    by apply lookup_singleton_eq.
  assert (H2 : current_question (fun _ => "") s = Ok ("A", "Q?")) by reflexivity.
  assert (H3 : (0 < followupsLeft s)%Z) by (simpl; lia).
  assert (H4 : js_trim "I used pytest." <> "") by (vm_compute; discriminate).
  assert (H5 : js_trim "I used pytest." <> "[SKIPPED]") by (vm_compute; discriminate).
  assert (H6 : decideFollowup 1 (Throw "fetch failed") = Throw "fetch failed") by reflexivity.
  split; [exact H1|]. split; [exact H2|]. split; [exact H3|]. split; [exact H4|].
  split; [exact H5|]. split; [exact H6|].
  exact (answer_decision_failure 1 (fun _ => "") {[ "s1" := s ]} "s1" "I used pytest." s
           (Throw "fetch failed") "A" "Q?" "fetch failed" H1 H2 H3 H4 H5 H6).
Defined.

(** C3 as stated fails: after a failed decision the session's
    transcript holds the submitted answer it did not hold before. *)
Lemma answer_decision_failure_counterexample :
  let s := {| candidateName := "Ada";
              planQuestions := [JObj [("skill", JStr "A"); ("question", JStr "Q?")]];
              idx := 0; transcript := []; followupsLeft := 1 |} in
  let after := exec 1 (fun _ => "") {[ "s1" := s ]}
                 (Answer "s1" "I used pytest." (Throw "fetch failed")) in
  snd after = RErr 500 "fetch failed" /\
  option_map transcript (fst after !! "s1") <> Some (transcript s).
Proof.
  intros s after. split; [reflexivity|].
  unfold after. vm_compute. discriminate.
Qed.

(* ================================================================== *)
(** ** Further properties of the code *)
(* ================================================================== *)

(** *** [safeFilename] *)

Lemma word_not_ws (c : ascii) : is_word_or_hyphen c = true -> is_ws c = false.
Proof.
  destruct c as [b0 b1 b2 b3 b4 b5 b6 b7].
  destruct b0, b1, b2, b3, b4, b5, b6, b7; intros H; try reflexivity; discriminate H.
Qed.

Lemma underscore_word : is_word_or_hyphen underscore = true.
Proof. reflexivity. Qed.

Lemma replace_nonword_word (s : string) (b : bool) :
  str_forall is_word_or_hyphen (replace_nonword s b) = true.
Proof.
  revert b. induction s as [|c s IH]; intros b; simpl; [reflexivity|].
  destruct (is_word_or_hyphen c) eqn:E; simpl; [rewrite E; apply IH|].
  destruct b; [apply IH|simpl; apply IH].
Qed.

Lemma replace_nonword_id (s : string) (b : bool) :
  str_forall is_word_or_hyphen s = true -> replace_nonword s b = s.
Proof.
  revert b. induction s as [|c s IH]; intros b; simpl; [reflexivity|].
  intros H. apply andb_true_iff in H as [Hc Hs]. rewrite Hc, IH; auto.
Qed.

Lemma drop_leading_us_forall (f : ascii -> bool) (s : string) :
  str_forall f s = true -> str_forall f (drop_leading_us s) = true.
Proof.
  induction s as [|c s IH]; simpl; [auto|].
  intros H. destruct (Ascii.eqb c underscore); [|exact H].
  apply andb_true_iff in H as [_ H]. auto.
Qed.

Lemma drop_leading_us_start (s : string) : starts_with_us (drop_leading_us s) = false.
Proof.
  induction s as [|c s IH]; simpl; [reflexivity|].
  destruct (Ascii.eqb c underscore) eqn:E; [exact IH|exact E].
Qed.

Lemma drop_leading_us_id (s : string) : starts_with_us s = false -> drop_leading_us s = s.
Proof. destruct s as [|c s]; simpl; [auto|]. intros H. now rewrite H. Qed.

Lemma drop_trailing_us_forall (f : ascii -> bool) (s : string) :
  str_forall f s = true -> str_forall f (drop_trailing_us s) = true.
Proof.
  induction s as [|c s IH]; simpl; [auto|].
  intros H. apply andb_true_iff in H as [Hc Hs].
  destruct (Ascii.eqb c underscore && String.eqb (drop_trailing_us s) ""); simpl;
    [reflexivity|rewrite Hc; auto].
Qed.

Lemma drop_trailing_us_end (s : string) : ends_with_us (drop_trailing_us s) = false.
Proof.
  induction s as [|c s IH]; simpl; [reflexivity|].
  destruct (Ascii.eqb c underscore) eqn:Ec; destruct (drop_trailing_us s) as [|d r] eqn:Er;
    simpl; auto.
Qed.

Lemma drop_trailing_us_start (s : string) :
  starts_with_us s = false -> starts_with_us (drop_trailing_us s) = false.
Proof.
  destruct s as [|c s]; simpl; [auto|]. intros H. rewrite H. simpl. exact H.
Qed.

Lemma drop_trailing_us_id (s : string) : ends_with_us s = false -> drop_trailing_us s = s.
Proof.
  induction s as [|c s IH]; simpl; [auto|].
  destruct s as [|d s].
  - intros H. simpl. now rewrite H.
  - intros H. rewrite (IH H). simpl. now rewrite andb_false_r.
Qed.

Lemma js_trim_no_ws (s : string) :
  str_forall (fun c => negb (is_ws c)) s = true -> js_trim s = s.
Proof.
  intros H. unfold js_trim.
  assert (Hs : trim_start s = s).
  { destruct s as [|c s]; simpl in *; [reflexivity|].
    apply andb_true_iff in H as [Hc _]. apply negb_true_iff in Hc. now rewrite Hc. }
  rewrite Hs. clear Hs. induction s as [|c s IH]; simpl in *; [reflexivity|].
  apply andb_true_iff in H as [Hc Hs]. apply negb_true_iff in Hc.
  rewrite (IH Hs). destruct s; [now rewrite Hc|reflexivity].
Qed.

Lemma str_forall_impl (f g : ascii -> bool) (s : string) :
  (forall c, f c = true -> g c = true) -> str_forall f s = true -> str_forall g s = true.
Proof.
  intros Hfg. induction s as [|c s IH]; simpl; [auto|].
  intros H. apply andb_true_iff in H as [Hc Hs]. rewrite (Hfg c Hc). auto.
Qed.

Lemma safeFilename_shape (name : string) :
  str_forall is_word_or_hyphen (safeFilename name) = true /\
  starts_with_us (safeFilename name) = false /\
  ends_with_us (safeFilename name) = false.
Proof.
  unfold safeFilename. set (t := replace_nonword _ false).
  split; [|split].
  - apply drop_trailing_us_forall, drop_leading_us_forall, replace_nonword_word.
  - apply drop_trailing_us_start, drop_leading_us_start.
  - apply drop_trailing_us_end.
Qed.

(** [safeFilename] only produces letters, digits, [_] and [-], and never
    a leading or trailing [_]. *)
Theorem safeFilename_charset (name : string) :
  str_forall is_word_or_hyphen (safeFilename name) = true /\
  starts_with_us (safeFilename name) = false /\
  ends_with_us (safeFilename name) = false.
Proof. apply safeFilename_shape. Qed.

(** A non-empty [safeFilename] result is a fixed point: sanitizing an
    already sanitized name changes nothing. *)
Theorem safeFilename_idempotent (name : string) :
  safeFilename name <> "" -> safeFilename (safeFilename name) = safeFilename name.
Proof.
  intros Hne. destruct (safeFilename_shape name) as [Hw [Hs He]].
  set (r := safeFilename name) in *. unfold safeFilename at 1.
  rewrite (proj2 (String.eqb_neq r "") Hne).
  rewrite js_trim_no_ws.
  - rewrite replace_nonword_id by exact Hw.
    rewrite drop_leading_us_id by exact Hs. apply drop_trailing_us_id, He.
  - apply (str_forall_impl is_word_or_hyphen); [|exact Hw].
    intros c Hc. now rewrite word_not_ws.
Qed.

Lemma safeFilename_idempotent_witness :
  safeFilename " Ada  Lovelace!! " = "Ada_Lovelace" /\
  safeFilename " Ada  Lovelace!! " <> "" /\
  safeFilename (safeFilename " Ada  Lovelace!! ") = safeFilename " Ada  Lovelace!! ".
Proof.
  split; [vm_compute; reflexivity|].
  assert (H : safeFilename " Ada  Lovelace!! " <> "") by (vm_compute; discriminate).
  split; [exact H|]. exact (safeFilename_idempotent _ H).
Defined.

(** *** [getCoverage] *)

Lemma filter_length_le {A : Type} (f : A -> bool) (l : list A) :
  (List.length (List.filter f l) <= List.length l)%nat.
Proof. induction l as [|a l IH]; simpl; [lia|]. destruct (f a); simpl; lia. Qed.

Lemma filter_length_full {A : Type} (f : A -> bool) (l : list A) :
  List.length (List.filter f l) = List.length l <-> (forall x, In x l -> f x = true).
Proof.
  induction l as [|a l IH]; simpl; [split; [tauto|reflexivity]|].
  pose proof (filter_length_le f l) as Hl.
  destruct (f a) eqn:E; simpl; split.
  - intros H x [<-|Hx]; [exact E|]. apply IH; [lia|exact Hx].
  - intros H. f_equal. apply IH. auto.
  - lia.
  - intros H. rewrite H in E by auto. discriminate.
Qed.

(** The coverage counts the matrix skills answered under their own
    non-empty name: [count] is at most [total] (the number of skill
    names), [fraction] lies in [0,1], and [count = total] exactly when
    every skill name is non-empty and is the skill of some transcript
    entry. *)
Theorem getCoverage_bounds (transcript : list qa) (skillNames : list string) :
  (count (getCoverage transcript skillNames) <= total (getCoverage transcript skillNames))%nat /\
  total (getCoverage transcript skillNames) = List.length skillNames /\
  (0 <= fraction (getCoverage transcript skillNames) <= 1)%Q /\
  (count (getCoverage transcript skillNames) = total (getCoverage transcript skillNames) <->
   forall k, In k skillNames -> k <> "" /\ exists e, In e transcript /\ qa_skill e = k).
Proof.
  unfold getCoverage. simpl.
  set (answered := list_to_set _ : gset string).
  set (f := fun k => bool_decide (k ∈ answered)).
  pose proof (filter_length_le f skillNames) as Hle.
  split; [exact Hle|]. split; [reflexivity|]. split.
  - destruct (Nat.eqb_spec (List.length skillNames) 0) as [E|E]; [split; discriminate|].
    split.
    + apply Qle_shift_div_l; [unfold Qlt; simpl; lia|].
      rewrite Qmult_0_l. unfold Qle; simpl; lia.
    + apply Qle_shift_div_r; [unfold Qlt; simpl; lia|].
      rewrite Qmult_1_l. unfold Qle; simpl; lia.
  - rewrite filter_length_full. split; intros H k Hk; specialize (H k Hk).
    + unfold f in H. apply bool_decide_eq_true in H.
      unfold answered in H. apply elem_of_list_to_set, list_elem_of_In in H.
      apply filter_In in H as [Hin Hne]. apply negb_true_iff, String.eqb_neq in Hne.
      apply in_map_iff in Hin as [e [He Hin]]. split; [exact Hne|eauto].
    + destruct H as [Hne [e [Hin He]]]. unfold f. apply bool_decide_eq_true.
      unfold answered. apply elem_of_list_to_set, list_elem_of_In, filter_In.
      split; [apply in_map_iff; eauto|]. now apply negb_true_iff, String.eqb_neq.
Qed.

(** *** Score ranges *)

Lemma js_round_mono (x y : Q) : (x <= y)%Q -> (js_round x <= js_round y)%Z.
Proof.
  intros H. unfold js_round. apply Qfloor_resp_le.
  apply Qplus_le_compat; [exact H|apply Qle_refl].
Qed.

Lemma js_round_range (x : Q) (lo hi : Z) :
  (inject_Z lo <= x <= inject_Z hi)%Q -> (lo <= js_round x <= hi)%Z.
Proof.
  intros [H1 H2]. split.
  - rewrite <- (js_round_Z lo). now apply js_round_mono.
  - rewrite <- (js_round_Z hi). now apply js_round_mono.
Qed.

Lemma clampInt_num_mono (q1 q2 : Q) (min max : Z) :
  (q1 <= q2)%Q -> (clampInt_num q1 min max <= clampInt_num q2 min max)%Z.
Proof.
  intros H. unfold clampInt_num. pose proof (js_round_mono q1 q2 H). lia.
Qed.

Lemma scale_to_100 (x : Q) : ((x - 1) / 8 * 100 == (x - 1) * (25 # 2))%Q.
Proof. field. Qed.

Lemma score1to9_to_0to100_range (q : Q) : (0 <= score1to9_to_0to100 q <= 100)%Z.
Proof.
  unfold score1to9_to_0to100. apply js_round_range.
  pose proof (clampInt_num_bounds q 1 9 ltac:(lia)) as Hb.
  set (s := clampInt_num q 1 9) in *.
  assert (Hs : (1 <= inject_Z s <= 9)%Q).
  { split; unfold Qle; simpl; lia. }
  rewrite scale_to_100. change (inject_Z 0) with 0%Q. change (inject_Z 100) with 100%Q.
  set (x := inject_Z s) in *. lra.
Qed.

(** [score1to9_to_0to100] is monotone: a higher 1-9 score never maps
    to a lower 0-100 score. *)
Theorem score1to9_to_0to100_mono (q1 q2 : Q) :
  (q1 <= q2)%Q -> (score1to9_to_0to100 q1 <= score1to9_to_0to100 q2)%Z.
Proof.
  intros H. unfold score1to9_to_0to100. apply js_round_mono.
  pose proof (clampInt_num_mono q1 q2 1 9 H) as Hm.
  rewrite Zle_Qle in Hm. rewrite !scale_to_100. lra.
Qed.

Lemma score1to9_to_0to100_mono_witness :
  (2 <= 7 # 2)%Q /\ (score1to9_to_0to100 2 <= score1to9_to_0to100 (7 # 2))%Z.
Proof.
  assert (H : (2 <= 7 # 2)%Q) by (unfold Qle; simpl; lia).
  split; [exact H|]. exact (score1to9_to_0to100_mono _ _ H).
Defined.

Lemma dadd_fin (p q : Q) : dadd (NFin p) (NFin q) = fl (p + q).
Proof. reflexivity. Qed.

Lemma dmul_fin (p q : Q) : dmul (NFin p) (NFin q) = fl (p * q).
Proof. reflexivity. Qed.

Lemma ddiv_pos (p q : Q) : (0 < q)%Q -> ddiv (NFin p) (NFin q) = fl (p / q).
Proof.
  intros H. unfold ddiv. destruct (Qcompare_spec q 0); [exfalso; lra|reflexivity|reflexivity].
Qed.

Lemma dadd_nan_r (a : jsnum) : dadd a NNaN = NNaN.
Proof. destruct a as [|[]|]; reflexivity. Qed.

Lemma Z_0_100_Q (z : Z) : (0 <= z <= 100)%Z -> (0 <= inject_Z z <= 100)%Q.
Proof. intros H. split; unfold Qle; simpl; lia. Qed.

Lemma is_double_1 : is_double 1 = true. Proof. vm_compute. reflexivity. Qed.
Lemma is_double_8 : is_double 8 = true. Proof. vm_compute. reflexivity. Qed.
Lemma is_double_9 : is_double 9 = true. Proof. vm_compute. reflexivity. Qed.
Lemma is_double_30 : is_double 30 = true. Proof. vm_compute. reflexivity. Qed.
Lemma is_double_70 : is_double 70 = true. Proof. vm_compute. reflexivity. Qed.
Lemma is_double_100 : is_double 100 = true. Proof. vm_compute. reflexivity. Qed.

(** [d0_7] and [d0_3] are the doubles the literals [0.7] and [0.3] denote. *)
Lemma d0_7_d0_3_literals :
  (exists r, fl (7 # 10) = NFin r /\ (r == d0_7)%Q) /\
  (exists r, fl (3 # 10) = NFin r /\ (r == d0_3)%Q).
Proof. split; eexists; (split; [vm_compute; reflexivity | vm_compute; reflexivity]). Qed.

Lemma d0_7_bounds : (0 <= d0_7 <= 7 # 10)%Q.
Proof. unfold d0_7. split; unfold Qle; simpl; lia. Qed.

Lemma d0_3_bounds : (0 <= d0_3 <= 3 # 10)%Q.
Proof. unfold d0_3. split; unfold Qle; simpl; lia. Qed.

(** [Math.round(a + b)] of two doubles in [0,70] and [0,30]. *)
Lemma round_sum_range (a b : Q) : (0 <= a <= 70)%Q -> (0 <= b <= 30)%Q ->
  exists k, math_round (fl (a + b)) = NFin (inject_Z k) /\ (0 <= k <= 100)%Z.
Proof.
  intros Ha Hb.
  destruct (fl_between 0 100 (a + b) is_double_0 is_double_100) as [c [Hc Hr]]; [lra|].
  rewrite Hc. exists (js_round c). split; [reflexivity|]. apply js_round_range. exact Hr.
Qed.

(** [0.7 * x] and [0.3 * y] for [x] and [y] in [0,100]. *)
Lemma scale_0_7_range (x : Q) : (0 <= x <= 100)%Q ->
  exists r, fl (d0_7 * x) = NFin r /\ (0 <= r <= 70)%Q.
Proof.
  intros Hx. pose proof d0_7_bounds as Hc.
  apply (fl_between 0 70 _ is_double_0 is_double_70). split.
  - apply Qmult_le_0_compat; lra.
  - apply Qle_trans with ((7 # 10) * 100)%Q; [|unfold Qle; simpl; lia].
    apply Qmult_le_compat_nonneg; split; lra.
Qed.

Lemma scale_0_3_range (x : Q) : (0 <= x <= 100)%Q ->
  exists r, fl (d0_3 * x) = NFin r /\ (0 <= r <= 30)%Q.
Proof.
  intros Hx. pose proof d0_3_bounds as Hc.
  apply (fl_between 0 30 _ is_double_0 is_double_30). split.
  - apply Qmult_le_0_compat; lra.
  - apply Qle_trans with ((3 # 10) * 100)%Q; [|unfold Qle; simpl; lia].
    apply Qmult_le_compat_nonneg; split; lra.
Qed.

Lemma score1to9_to_0to100_num_range (n : jsnum) : (0 <= score1to9_to_0to100_num n <= 100)%Z.
Proof. destruct n; apply score1to9_to_0to100_range. Qed.

(** The three 0-100 scores of the server, [score1to9_to_0to100], the
    weighted skills score and the overall score of [/api/finish], always
    lie in [0,100]; the overall score, computed on doubles, is an
    integer. *)
Theorem scores_0to100_range (q : Q) (skillScores : list skill_score)
    (skills : list skill_def) (norm : assessment) :
  (0 <= score1to9_to_0to100 q <= 100)%Z /\
  (0 <= weightedSkillsScore0to100 skillScores skills <= 100)%Z /\
  exists k, overall norm skills = NFin (inject_Z k) /\ (0 <= k <= 100)%Z.
Proof.
  assert (Hw : forall l, (0 <= weightedSkillsScore0to100 l skills <= 100)%Z).
  { intros l. unfold weightedSkillsScore0to100. cbv zeta.
    destruct (js_le_0 _); [lia|apply score1to9_to_0to100_num_range]. }
  split; [apply score1to9_to_0to100_range|]. split; [apply Hw|].
  unfold overall. rewrite !dmul_fin.
  destruct (scale_0_7_range _ (Z_0_100_Q _ (Hw (skill_scores norm)))) as [a [-> Ha]].
  destruct (scale_0_3_range _ (Z_0_100_Q _ (score1to9_to_0to100_range
              (inject_Z (exercise_score_1_to_9 norm))))) as [b [-> Hb]].
  rewrite dadd_fin. apply round_sum_range; assumption.
Qed.

(** *** [cleanJSON] on its own output *)

Lemma braced_indices (p m s : string) :
  nobrace p = true -> nobrace s = true ->
  exists u, strip_fences (p ++ braced m ++ s) = u /\
    index_of lbrace u <> (-1)%Z /\ last_index_of rbrace u <> (-1)%Z /\
    (index_of lbrace u < last_index_of rbrace u)%Z /\
    js_trim (js_slice u (index_of lbrace u) (last_index_of rbrace u + 1)) = braced m.
Proof.
  intros Hp Hs.
  destruct (strip_fences_braced p m s Hp Hs) as [p2 [s2 [Hp2 [Hs2 E]]]].
  exists (strip_fences (p ++ braced m ++ s)). split; [reflexivity|].
  assert (Ha : index_of lbrace (strip_fences (p ++ braced m ++ s))
               = Z.of_nat (String.length p2)).
  { rewrite E. apply (index_of_brace p2 ((m ++ String rbrace "") ++ s2) Hp2). }
  assert (Hb : last_index_of rbrace (strip_fences (p ++ braced m ++ s))
               = Z.of_nat (String.length p2 + S (String.length m))).
  { rewrite E, braced_assoc, last_index_of_app, last_index_of_nobrace by exact Hs2.
    simpl Z.eqb. cbv iota.
    rewrite last_index_of_app. simpl. rewrite str_length_app. simpl. lia. }
  rewrite Ha, Hb. split; [lia|]. split; [lia|]. split; [lia|].
  unfold js_slice. rewrite E, Nat2Z.id.
  replace (Z.to_nat (Z.of_nat (String.length p2 + S (String.length m)) + 1)
           - String.length p2)%nat
    with (String.length (braced m)).
  - rewrite substring_app. apply js_trim_object.
  - unfold braced. simpl. rewrite str_length_app. simpl. lia.
Qed.

Lemma both_cleanJSON_braced (m : string) :
  cleanJSON (braced m) = braced m /\ cleanJSON_assessment (braced m) = braced m.
Proof.
  destruct (braced_indices "" m "" eq_refl eq_refl) as [u [Eu [Ha [Hb [Hab Hsl]]]]].
  rewrite str_app_nil_r in Eu. simpl in Eu.
  unfold cleanJSON, cleanJSON_assessment. cbv zeta. rewrite Eu.
  rewrite (proj2 (Z.eqb_neq _ _) Ha), (proj2 (Z.eqb_neq _ _) Hb),
          (proj2 (Z.ltb_lt _ _) Hab). simpl. split; exact Hsl.
Qed.

(** When [cleanJSON] extracts an object (its result starts with [{] and
    ends with [}]), that result is a fixed point of both [cleanJSON]
    copies: cleaning an extracted object again returns it unchanged. *)
Theorem cleanJSON_object_fixpoint (t m : string) :
  cleanJSON t = braced m ->
  cleanJSON (cleanJSON t) = cleanJSON t /\
  cleanJSON_assessment (cleanJSON t) = cleanJSON t.
Proof. intros H. rewrite H. apply both_cleanJSON_braced. Qed.

Lemma cleanJSON_object_fixpoint_witness :
  cleanJSON ("Here ```json " ++ braced "a" ++ " ``` ok") = braced "a" /\
  cleanJSON (cleanJSON ("Here ```json " ++ braced "a" ++ " ``` ok"))
    = cleanJSON ("Here ```json " ++ braced "a" ++ " ``` ok") /\
  cleanJSON_assessment (cleanJSON ("Here ```json " ++ braced "a" ++ " ``` ok"))
    = cleanJSON ("Here ```json " ++ braced "a" ++ " ``` ok").
Proof.
  assert (H : cleanJSON ("Here ```json " ++ braced "a" ++ " ``` ok") = braced "a")
    by (vm_compute; reflexivity).
  split; [exact H|]. exact (cleanJSON_object_fixpoint _ _ H).
Defined.

(** *** [compareMulti] rows *)

Lemma fold_min_le (l : list Z) (a x : Z) :
  In x (a :: l) -> (fold_left Z.min l a <= x)%Z.
Proof.
  revert a. induction l as [|b l IH]; intros a Hx; simpl in *.
  - destruct Hx as [<-|[]]. lia.
  - assert (Hm : forall c, (fold_left Z.min l c <= c)%Z).
    { clear. induction l as [|d l IH]; intros c; simpl; [lia|].
      specialize (IH (Z.min c d)). lia. }
    destruct Hx as [<-|[<-|Hx]].
    + specialize (Hm (Z.min a b)). lia.
    + specialize (Hm (Z.min a b)). lia.
    + apply IH. now right.
Qed.

Lemma fold_max_ge (l : list Z) (a x : Z) :
  In x (a :: l) -> (x <= fold_left Z.max l a)%Z.
Proof.
  revert a. induction l as [|b l IH]; intros a Hx; simpl in *.
  - destruct Hx as [<-|[]]. lia.
  - assert (Hm : forall c, (c <= fold_left Z.max l c)%Z).
    { clear. induction l as [|d l IH]; intros c; simpl; [lia|].
      specialize (IH (Z.max c d)). lia. }
    destruct Hx as [<-|[<-|Hx]].
    + specialize (Hm (Z.max a b)). lia.
    + specialize (Hm (Z.max a b)). lia.
    + apply IH. now right.
Qed.

(** Every disagreement row has one score per result, each between the
    row's [min] and [max], so its [spread] is non-negative; there is one
    row per skill of the first result, and [biggest_disagreements] holds
    [min(5, rows)] rows. *)
Theorem compareMulti_rows_bounds (results : list assessment) :
  List.length (CompareMulti.rows (CompareMulti.compareMulti results)) =
    match results with [] => 0%nat | r0 :: _ => List.length (skill_scores r0) end /\
  List.length (CompareMulti.biggest_disagreements (CompareMulti.compareMulti results)) =
    Nat.min 5 (List.length (CompareMulti.rows (CompareMulti.compareMulti results))) /\
  Forall (fun r =>
            List.length (CompareMulti.scores r) = List.length results /\
            Forall (fun x => CompareMulti.min r <= x <= CompareMulti.max r)%Z
              (CompareMulti.scores r) /\
            (0 <= CompareMulti.spread r)%Z)
    (CompareMulti.rows (CompareMulti.compareMulti results)).
Proof.
  split; [|split].
  - simpl. rewrite (Permutation_length (sort_rows_perm _)).
    destruct results as [|r0 rest]; simpl; [reflexivity|].
    unfold skill_names. now rewrite !length_map.
  - simpl. apply length_firstn.
  - apply List.Forall_forall. intros r Hr. simpl in Hr.
    apply (Permutation_in _ (sort_rows_perm _)) in Hr.
    destruct results as [|r0 rest]; [destruct Hr|]. simpl in Hr.
    apply in_map_iff in Hr as [sk [<- _]]. unfold CompareMulti.mk_row. simpl.
    split; [now rewrite length_map|].
    assert (Hb : Forall (fun x =>
                  (fold_left Z.min (map (CompareMulti.found_score sk) rest)
                     (CompareMulti.found_score sk r0) <= x <=
                   fold_left Z.max (map (CompareMulti.found_score sk) rest)
                     (CompareMulti.found_score sk r0))%Z)
                  (CompareMulti.found_score sk r0 :: map (CompareMulti.found_score sk) rest)).
    { apply List.Forall_forall. intros x Hx. split; [apply fold_min_le|apply fold_max_ge]; exact Hx. }
    split; [exact Hb|].
    inversion Hb as [|? ? [H1 H2] _]. lia.
Qed.

(** *** The answer step *)

Section AnswerStep.

Variable MAX : Z.
Variable nts : Q -> string.

Lemma advance_fields (s : session) :
  let s' := fst (advance MAX s) in
  planQuestions s' = planQuestions s /\ candidateName s' = candidateName s /\
  idx s' = S (idx s) /\ followupsLeft s' = MAX /\ transcript s' = transcript s /\
  (exists b, snd (advance MAX s) = Ok b).
Proof. unfold advance. destruct (nth_error _ _); simpl; repeat split; eauto. Qed.

(** An answer leaves the plan and the candidate name alone and does one
    of three things: it fails (cursor and budget unchanged, at most one
    transcript entry added), it asks a follow-up (cursor unchanged, a
    positive budget decremented, one entry added), or it advances (cursor
    plus one, budget reset to the setting, one entry added). *)
Theorem answer_step_cases (s : session) (answer : string) (decision : js_result jsval) :
  let (s', r) := answer_step MAX nts s answer decision in
  planQuestions s' = planQuestions s /\ candidateName s' = candidateName s /\
  (((exists m, r = Throw m) /\ idx s' = idx s /\ followupsLeft s' = followupsLeft s /\
     (transcript s' = transcript s \/ exists e, transcript s' = (transcript s ++ [e])%list))
   \/ ((exists b, r = Ok b) /\ idx s' = idx s /\ (0 < followupsLeft s)%Z /\
     followupsLeft s' = (followupsLeft s - 1)%Z /\
     (exists e, transcript s' = (transcript s ++ [e])%list))
   \/ ((exists b, r = Ok b) /\ idx s' = S (idx s) /\ followupsLeft s' = MAX /\
     (exists e, transcript s' = (transcript s ++ [e])%list))).
Proof.
  unfold answer_step.
  destruct (current_question nts s) as [[skillName question]|m].
  2:{ split; [reflexivity|]. split; [reflexivity|]. left.
       split; [eauto|]. repeat split; auto. }
  set (e := {| qa_skill := skillName; qa_question := question; qa_answer := answer |}).
  set (s1 := set_transcript s (transcript s ++ [e])).
  assert (Hadv : let (s', r) := advance MAX s1 in
      planQuestions s' = planQuestions s /\ candidateName s' = candidateName s /\
      (exists b, r = Ok b) /\ idx s' = S (idx s) /\ followupsLeft s' = MAX /\
      transcript s' = (transcript s ++ [e])%list).
  { pose proof (advance_fields s1) as H. destruct (advance MAX s1) as [s' r].
    simpl in H. destruct H as [H1 [H2 [H3 [H4 [H5 H6]]]]]. repeat split; auto. }
  destruct (Z.ltb 0 (followupsLeft s1) && negb (String.eqb (js_trim answer) "")
            && negb (String.eqb (js_trim answer) "[SKIPPED]")) eqn:Hc.
  - apply andb_true_iff in Hc as [Hc _]. apply andb_true_iff in Hc as [Hc _].
    apply Z.ltb_lt in Hc. simpl in Hc.
    destruct (decideFollowup MAX decision) as [[need fq]|m].
    + destruct (need && truthy fq).
      * split; [reflexivity|]. split; [reflexivity|]. right. left.
        split; [eauto|]. repeat split; auto. eauto.
      * destruct (advance MAX s1) as [s' r].
        destruct Hadv as [H1 [H2 [H3 [H4 [H5 H6]]]]].
        split; [exact H1|]. split; [exact H2|]. right. right. eauto.
    + split; [reflexivity|]. split; [reflexivity|]. left.
      split; [eauto|]. repeat split; auto. right. eauto.
  - destruct (advance MAX s1) as [s' r].
    destruct Hadv as [H1 [H2 [H3 [H4 [H5 H6]]]]].
    split; [exact H1|]. split; [exact H2|]. right. right. eauto.
Qed.

(** A blank or ["[SKIPPED]"] answer to an existing question never
    consults the follow-up model: the outcome is the same whatever the
    decision would be, and the cursor advances with the budget reset. *)
Theorem answer_step_skip (s : session) (answer : string) (d1 d2 : js_result jsval)
    (skillName question : string) :
  current_question nts s = Ok (skillName, question) ->
  js_trim answer = "" \/ js_trim answer = "[SKIPPED]" ->
  answer_step MAX nts s answer d1 = answer_step MAX nts s answer d2 /\
  idx (fst (answer_step MAX nts s answer d1)) = S (idx s) /\
  followupsLeft (fst (answer_step MAX nts s answer d1)) = MAX /\
  transcript (fst (answer_step MAX nts s answer d1)) =
    (transcript s ++ [{| qa_skill := skillName; qa_question := question;
                         qa_answer := answer |}])%list.
Proof.
  intros Hq Ha. unfold answer_step. rewrite Hq.
  assert (Hc : (negb (String.eqb (js_trim answer) "")
                && negb (String.eqb (js_trim answer) "[SKIPPED]")) = false).
  { destruct Ha as [-> | ->]; reflexivity. }
  rewrite <- andb_assoc, Hc, andb_false_r.
  split; [reflexivity|]. unfold advance.
  destruct (nth_error _ _); simpl; repeat split.
Qed.

End AnswerStep.

Lemma answer_step_skip_witness :
  let s := {| candidateName := "Ada";
              planQuestions := [JObj [("skill", JStr "A"); ("question", JStr "Q?")]];
              idx := 0; transcript := []; followupsLeft := 1 |} in
  current_question (fun _ => "") s = Ok ("A", "Q?") /\
  (js_trim " [SKIPPED] " = "" \/ js_trim " [SKIPPED] " = "[SKIPPED]") /\
  (answer_step 1 (fun _ => "") s " [SKIPPED] " (Ok (JObj [("need_followup", JBool true)]))
   = answer_step 1 (fun _ => "") s " [SKIPPED] " (Throw "timeout") /\
   idx (fst (answer_step 1 (fun _ => "") s " [SKIPPED] " (Ok (JObj [("need_followup", JBool true)]))))
     = S (idx s) /\
   followupsLeft (fst (answer_step 1 (fun _ => "") s " [SKIPPED] "
                         (Ok (JObj [("need_followup", JBool true)])))) = 1%Z /\
   transcript (fst (answer_step 1 (fun _ => "") s " [SKIPPED] "
                      (Ok (JObj [("need_followup", JBool true)])))) =
     (transcript s ++ [{| qa_skill := "A"; qa_question := "Q?";
                          qa_answer := " [SKIPPED] " |}])%list).
Proof.
  intros s.
  assert (Hq : current_question (fun _ => "") s = Ok ("A", "Q?")) by reflexivity.
  assert (Ha : js_trim " [SKIPPED] " = "" \/ js_trim " [SKIPPED] " = "[SKIPPED]")
    by (right; vm_compute; reflexivity).
  split; [exact Hq|]. split; [exact Ha|].
  exact (answer_step_skip 1 (fun _ => "") s " [SKIPPED] " _ _ "A" "Q?" Hq Ha).
Defined.

(** *** The registry across requests *)

(** Once the cursor has passed the last plan question, a further answer
    to that session fails with a 500 (the TypeError of reading [q.skill]
    on [undefined]) and leaves the registry unchanged. *)
Theorem answer_after_plan_end (MAX : Z) (nts : Q -> string) (reg : gmap string session)
    (id answer : string) (s : session) (decision : js_result jsval) :
  reg !! id = Some s -> (List.length (planQuestions s) <= idx s)%nat ->
  exec MAX nts reg (Answer id answer decision) = (reg, RErr 500 type_error).
Proof.
  intros Hs Hi. simpl. rewrite Hs. unfold answer_step, current_question.
  rewrite (proj2 (nth_error_None (planQuestions s) (idx s)) Hi). simpl.
  now rewrite insert_id.
Qed.

Lemma answer_after_plan_end_witness :
  let s := {| candidateName := "Ada";
              planQuestions := [JObj [("skill", JStr "A"); ("question", JStr "Q?")]];
              idx := 1; transcript := []; followupsLeft := 1 |} in
  ({[ "s1" := s ]} : gmap string session) !! "s1" = Some s /\
  (List.length (planQuestions s) <= idx s)%nat /\
  exec 1 (fun _ => "") {[ "s1" := s ]} (Answer "s1" "more" (Throw "x"))
    = ({[ "s1" := s ]}, RErr 500 type_error).
Proof.
  intros s.
  assert (H1 : ({[ "s1" := s ]} : gmap string session) !! "s1" = Some s)
    by apply lookup_singleton_eq.
  assert (H2 : (List.length (planQuestions s) <= idx s)%nat) by (simpl; lia).
  split; [exact H1|]. split; [exact H2|].
  exact (answer_after_plan_end 1 (fun _ => "") _ "s1" "more" s _ H1 H2).
Defined.

Lemma exec_lookup_other (MAX : Z) (nts : Q -> string) (reg : gmap string session)
    (o : op) (id : string) :
  op_session o <> id -> fst (exec MAX nts reg o) !! id = reg !! id.
Proof.
  intros Hne. destruct o as [id' name plan|id' a d|id' reply|id' reply|id' asm]; simpl in *.
  - destruct (buildInterviewPlan plan); simpl; [|reflexivity].
    apply lookup_insert_ne. congruence.
  - destruct (reg !! id') as [s|]; [|reflexivity].
    destruct (answer_step MAX nts s a d). simpl. apply lookup_insert_ne. congruence.
  - destruct (reg !! id'); [destruct (nth_error _ _)|]; reflexivity.
  - destruct (reg !! id'); reflexivity.
  - destruct (reg !! id'); [destruct asm|]; simpl; try reflexivity.
    apply lookup_delete_ne. congruence.
Qed.

(** Requests on one session never touch another: a request whose
    session id differs from [id] leaves the registry entry of [id] as it
    was. *)
Theorem exec_other_session (MAX : Z) (nts : Q -> string) (reg : gmap string session)
    (o : op) (id : string) :
  op_session o <> id -> fst (exec MAX nts reg o) !! id = reg !! id.
Proof. apply exec_lookup_other. Qed.

Lemma exec_other_session_witness :
  let plan := Ok (JObj [("questions", JArr [JObj [("skill", JStr "A")]])]) in
  let reg := fst (exec 1 (fun _ => "") ∅ (Start "s1" "Ada" plan)) in
  op_session (Finish "s2" (Ok tt)) <> "s1" /\
  fst (exec 1 (fun _ => "") reg (Finish "s2" (Ok tt))) !! "s1" = reg !! "s1".
Proof.
  intros plan reg.
  assert (H : op_session (Finish "s2" (Ok tt)) <> "s1") by (simpl; discriminate).
  split; [exact H|]. exact (exec_other_session 1 (fun _ => "") reg _ "s1" H).
Defined.

Lemma answer_step_keeps (MAX : Z) (nts : Q -> string) (s : session) (a : string)
    (d : js_result jsval) :
  let s' := fst (answer_step MAX nts s a d) in
  planQuestions s' = planQuestions s /\ candidateName s' = candidateName s /\
  exists l, transcript s' = (transcript s ++ l)%list.
Proof.
  unfold answer_step.
  destruct (current_question nts s) as [[skillName question]|m];
    [|simpl; repeat split; exists []; now rewrite app_nil_r].
  set (e := {| qa_skill := skillName; qa_question := question; qa_answer := a |}).
  assert (Ha : forall s1, planQuestions s1 = planQuestions s -> candidateName s1 = candidateName s ->
             transcript s1 = (transcript s ++ [e])%list ->
             let s' := fst (advance MAX s1) in
             planQuestions s' = planQuestions s /\ candidateName s' = candidateName s /\
             exists l, transcript s' = (transcript s ++ l)%list).
  { intros s1 H1 H2 H3. unfold advance. destruct (nth_error _ _); simpl; eauto. }
  destruct (_ && _ && _).
  - destruct (decideFollowup MAX d) as [[need fq]|m]; [destruct (need && truthy fq)|];
      simpl; eauto.
  - apply Ha; reflexivity.
Qed.

Lemma exec_same_session (MAX : Z) (nts : Q -> string) (reg : gmap string session)
    (o : op) (id : string) (s : session) :
  reg !! id = Some s -> is_start o = false \/ op_session o <> id ->
  match fst (exec MAX nts reg o) !! id with
  | None => True
  | Some s' => planQuestions s' = planQuestions s /\ candidateName s' = candidateName s /\
               exists l, transcript s' = (transcript s ++ l)%list
  end.
Proof.
  intros Hs Ho.
  assert (Hrefl : planQuestions s = planQuestions s /\ candidateName s = candidateName s /\
                  exists l, transcript s = (transcript s ++ l)%list).
  { repeat split. exists []. now rewrite app_nil_r. }
  destruct (String.eq_dec (op_session o) id) as [Heq|Hne].
  2:{ rewrite exec_lookup_other by exact Hne. now rewrite Hs. }
  destruct o as [id' name plan|id' a d|id' reply|id' reply|id' asm]; simpl in *; subst id'.
  - destruct Ho as [Ho|Ho]; [discriminate|contradiction].
  - rewrite Hs. pose proof (answer_step_keeps MAX nts s a d) as Hk.
    destruct (answer_step MAX nts s a d) as [s' r]. simpl in *.
    rewrite lookup_insert_eq. exact Hk.
  - rewrite Hs. destruct (nth_error _ _); simpl; rewrite Hs; exact Hrefl.
  - rewrite Hs. simpl. rewrite Hs. exact Hrefl.
  - rewrite Hs. destruct asm; simpl; [now rewrite lookup_delete_eq|rewrite Hs; exact Hrefl].
Qed.

(** Through any requests that do not start a new session under the same
    id, a session keeps its plan and candidate name, and its transcript
    only grows at the end: while the session exists, the transcript it
    had is a prefix of the one it has. *)
Theorem session_history_append_only (MAX : Z) (nts : Q -> string)
    (reg : gmap string session) (id : string) (s : session) (ops : list op) :
  reg !! id = Some s ->
  Forall (fun o => is_start o = false \/ op_session o <> id) ops ->
  match fst (run MAX nts reg ops) !! id with
  | None => True
  | Some s' => planQuestions s' = planQuestions s /\ candidateName s' = candidateName s /\
               exists l, transcript s' = (transcript s ++ l)%list
  end.
Proof.
  intros Hs Hops. revert reg s Hs. induction Hops as [|o ops Ho Hops IH]; intros reg s Hs.
  - simpl. rewrite Hs. repeat split. exists []. now rewrite app_nil_r.
  - simpl. pose proof (exec_same_session MAX nts reg o id s Hs Ho) as H1.
    destruct (exec MAX nts reg o) as [reg1 r] eqn:E. simpl in H1.
    destruct (reg1 !! id) as [s1|] eqn:E1.
    + specialize (IH reg1 s1 E1). destruct (run MAX nts reg1 ops) as [reg2 rs]. simpl in *.
      destruct (reg2 !! id) as [s2|]; [|exact I].
      destruct H1 as [P1 [N1 [l1 T1]]]. destruct IH as [P2 [N2 [l2 T2]]].
      split; [congruence|]. split; [congruence|]. exists (l1 ++ l2)%list.
      rewrite T2, T1. now rewrite app_assoc.
    + pose proof (run_absent MAX nts reg1 id ops E1 Hops) as [H2 _].
      destruct (run MAX nts reg1 ops) as [reg2 rs]. simpl in *. now rewrite H2.
Qed.

Lemma session_history_append_only_witness :
  let s := {| candidateName := "Ada";
              planQuestions := [JObj [("skill", JStr "A"); ("question", JStr "Q?")]];
              idx := 0; transcript := []; followupsLeft := 1 |} in
  let ops := [Answer "s1" "pytest" (Ok (JObj [("need_followup", JBool false)]));
              AutoAnswer "s1" (Ok "text")] in
  ({[ "s1" := s ]} : gmap string session) !! "s1" = Some s /\
  Forall (fun o => is_start o = false \/ op_session o <> "s1") ops /\
  match fst (run 1 (fun _ => "") {[ "s1" := s ]} ops) !! "s1" with
  | None => True
  | Some s' => planQuestions s' = planQuestions s /\ candidateName s' = candidateName s /\
               exists l, transcript s' = (transcript s ++ l)%list
  end.
Proof.
  intros s ops.
  assert (H1 : ({[ "s1" := s ]} : gmap string session) !! "s1" = Some s)
    by apply lookup_singleton_eq.
  assert (H2 : Forall (fun o => is_start o = false \/ op_session o <> "s1") ops)
    by (repeat constructor; left; reflexivity).
  split; [exact H1|]. split; [exact H2|].
  exact (session_history_append_only 1 (fun _ => "") _ "s1" s ops H1 H2).
Defined.

(** *** Bounds of [callChatJSON] and of the normalizer *)

Lemma attempt_body_Ok (json_parse : string -> js_result jsval) (first repair : chat_outcome)
    (v : jsval) :
  attempt_body json_parse first repair = Ok v ->
  exists text, (first = ChatOk text \/ repair = ChatOk text) /\
    cleanJSON text <> "" /\ json_parse (cleanJSON text) = Ok v.
Proof.
  unfold attempt_body. destruct first as [last|m]; [|discriminate].
  destruct (String.eqb (cleanJSON last) "") eqn:E1; [discriminate|].
  apply String.eqb_neq in E1.
  destruct (json_parse (cleanJSON last)) eqn:E2.
  - intros [= <-]. exists last. auto.
  - destruct repair as [fixedText|m]; [|discriminate].
    destruct (String.eqb (cleanJSON fixedText) "") eqn:E3; [discriminate|].
    apply String.eqb_neq in E3. intros H. exists fixedText. auto.
Qed.

Lemma retry_loop_Ok (json_parse : string -> js_result jsval)
    (env : nat -> chat_outcome * chat_outcome) (fuel attempt maxA : nat) (delay : Z)
    (v : jsval) :
  fst (retry_loop json_parse env fuel attempt maxA delay) = Ok v ->
  exists i, (attempt <= i < attempt + fuel)%nat /\ run_attempt json_parse env i = Ok v.
Proof.
  revert attempt delay. induction fuel as [|fuel IH]; intros attempt delay; simpl;
    [discriminate|].
  destruct (run_attempt json_parse env attempt) as [w|msg] eqn:E.
  - intros [= <-]. exists attempt. split; [lia|exact E].
  - destruct (Nat.eqb attempt maxA || negb (is_transient msg)); [discriminate|].
    destruct (retry_loop json_parse env fuel (S attempt) maxA (Z.min (delay * 2) 5000))
      as [r sleeps] eqn:E2.
    simpl. intros Hr.
    destruct (IH (S attempt) (Z.min (delay * 2) 5000)) as [i [Hi Hv]];
      [rewrite E2; exact Hr|].
    exists i. split; [lia|exact Hv].
Qed.

Lemma retry_loop_sleeps (json_parse : string -> js_result jsval)
    (env : nat -> chat_outcome * chat_outcome) (fuel attempt maxA : nat) (delay : Z) :
  (attempt + fuel = S maxA)%nat -> (450 <= delay <= 5000)%Z ->
  (List.length (snd (retry_loop json_parse env fuel attempt maxA delay)) <= fuel - 1)%nat /\
  Forall (fun d => 450 <= d <= 5000)%Z (snd (retry_loop json_parse env fuel attempt maxA delay)).
Proof.
  revert attempt delay. induction fuel as [|fuel IH]; intros attempt delay Hs Hd; simpl;
    [split; [lia|constructor]|].
  destruct (run_attempt json_parse env attempt) as [w|msg]; [simpl; split; [lia|constructor]|].
  destruct (Nat.eqb attempt maxA) eqn:Em; [simpl; split; [lia|constructor]|].
  apply Nat.eqb_neq in Em. simpl.
  destruct (negb (is_transient msg)); [simpl; split; [lia|constructor]|].
  destruct (IH (S attempt) (Z.min (delay * 2) 5000)) as [Hl Hf]; [lia|lia|].
  destruct (retry_loop json_parse env fuel (S attempt) maxA (Z.min (delay * 2) 5000))
    as [r sleeps].
  simpl in *. split; [destruct fuel; simpl in *; lia|constructor; assumption].
Qed.

(** Every value [callChatJSON] returns was parsed from a model reply: it is
    [JSON.parse] of the non-empty cleaned content of the first call or of
    the repair call of one of the attempts 1..maxAttempts. *)
Theorem callChatJSON_value_from_reply (json_parse : string -> js_result jsval)
    (env : nat -> chat_outcome * chat_outcome) (maxAttempts : nat) (v : jsval) :
  fst (callChatJSON json_parse env maxAttempts) = Ok v ->
  exists i text, (1 <= i <= maxAttempts)%nat /\
    (fst (env i) = ChatOk text \/ snd (env i) = ChatOk text) /\
    cleanJSON text <> "" /\ json_parse (cleanJSON text) = Ok v.
Proof.
  unfold callChatJSON. intros H.
  destruct (retry_loop_Ok json_parse env maxAttempts 1 maxAttempts 450 v H) as [i [Hi Hr]].
  unfold run_attempt in Hr. apply attempt_body_Ok in Hr as [text [Ht [Hc Hp]]].
  exists i, text. split; [lia|]. auto.
Qed.

Lemma callChatJSON_value_from_reply_witness :
  let json_parse := fun s => if String.eqb s "{}" then Ok (JObj []) else Throw "Unexpected token" in
  let env := fun i => match i with
                      | 1%nat => (ChatErr "fetch failed", ChatOk "")
                      | _ => (ChatOk "Sure: {", ChatOk "```json {} ```")
                      end in
  fst (callChatJSON json_parse env 3) = Ok (JObj []) /\
  exists i text, (1 <= i <= 3)%nat /\
    (fst (env i) = ChatOk text \/ snd (env i) = ChatOk text) /\
    cleanJSON text <> "" /\ json_parse (cleanJSON text) = Ok (JObj []).
Proof.
  intros json_parse env.
  assert (H : fst (callChatJSON json_parse env 3) = Ok (JObj [])) by (vm_compute; reflexivity).
  split; [exact H|].
  exact (callChatJSON_value_from_reply json_parse env 3 (JObj []) H).
Defined.

(** [callChatJSON] sleeps fewer times than it may attempt: at most
    [maxAttempts - 1] pauses (none for [maxAttempts = 0]), each of
    450 to 5000 ms. *)
Theorem callChatJSON_sleep_bounds (json_parse : string -> js_result jsval)
    (env : nat -> chat_outcome * chat_outcome) (maxAttempts : nat) :
  (List.length (snd (callChatJSON json_parse env maxAttempts)) <= maxAttempts - 1)%nat /\
  Forall (fun d => 450 <= d <= 5000)%Z (snd (callChatJSON json_parse env maxAttempts)).
Proof. apply retry_loop_sleeps; lia. Qed.

Lemma array_prefix_length (n : nat) (v : jsval) :
  (List.length (array_prefix n v) <= n)%nat.
Proof. destruct v; simpl; try lia. rewrite length_firstn. lia. Qed.

Lemma present_skill_score_caps (nts : Q -> string) (nm : string) (x st : jsval)
    (r : skill_score) :
  present_skill_score nts nm x st = Ok r ->
  (List.length (evidence_bullets r) <= 3 /\ List.length (risks r) <= 2 /\
   List.length (followups r) <= 2)%nat.
Proof.
  unfold present_skill_score. intros H. peel_binds. injection H as <-. simpl.
  split; [|split]; apply array_prefix_length.
Qed.

(** The normalized result is bounded in size whatever the assessor
    returned: at most 3 evidence bullets, 2 risks and 2 follow-ups per
    skill, at most 3 exercise evidence bullets and at most 6 summary
    items. *)
Theorem normalizeAssessorResult_caps (nts : Q -> string) (m : matrix) (raw st : jsval)
    (res : assessment) :
  normalizeAssessorResult nts m raw st = Ok res ->
  Forall (fun r => List.length (evidence_bullets r) <= 3 /\ List.length (risks r) <= 2 /\
                   List.length (followups r) <= 2)%nat (skill_scores res) /\
  (List.length (exercise_evidence_bullets res) <= 3)%nat /\
  (List.length (summary res) <= 6)%nat.
Proof.
  unfold normalizeAssessorResult. intros H.
  apply bindR_Ok in H as [ss [_ H]].
  apply bindR_Ok in H as [entries [_ H]].
  apply bindR_Ok in H as [scores [Hs H]].
  peel_binds. injection H as <-. simpl.
  split; [|split; apply array_prefix_length].
  apply mapR_Ok in Hs. clear -Hs. induction Hs as [|nm r l l' Hr _ IH]; constructor; [|exact IH].
  cbv beta in Hr.
  destruct (map_get entries nm) as [xe|]; [destruct (truthy xe)|].
  - eapply present_skill_score_caps; eauto.
  - injection Hr as <-. simpl. lia.
  - injection Hr as <-. simpl. lia.
Qed.

Lemma normalizeAssessorResult_caps_witness :
  let m := {| role := "AI Engineer"; skills := [{| name := "A"; weight := 1 |}] |} in
  let raw := JObj [("skill_scores",
               JArr [JObj [("skill", JStr "A"); ("score_1_to_9", JNum (NFin 12));
                           ("risks", JArr [JStr "r1"; JStr "r2"; JStr "r3"; JStr "r4"])]]);
               ("summary", JArr [JStr "1"; JStr "2"; JStr "3"; JStr "4"; JStr "5";
                                 JStr "6"; JStr "7"])] in
  exists res,
    normalizeAssessorResult (fun _ => "") m raw (JStr "strict") = Ok res /\
    Forall (fun r => List.length (evidence_bullets r) <= 3 /\ List.length (risks r) <= 2 /\
                     List.length (followups r) <= 2)%nat (skill_scores res) /\
    (List.length (exercise_evidence_bullets res) <= 3)%nat /\
    (List.length (summary res) <= 6)%nat.
Proof.
  intros m raw.
  destruct (normalizeAssessorResult (fun _ => "") m raw (JStr "strict")) as [res|e] eqn:E;
    [|vm_compute in E; discriminate E].
  exists res. split; [reflexivity|].
  exact (normalizeAssessorResult_caps (fun _ => "") m raw (JStr "strict") res E).
Defined.

(** *** The assessment module *)

Lemma Qle_bool_Z (a b : Z) : Qle_bool (inject_Z a) (inject_Z b) = (a <=? b)%Z.
Proof.
  destruct (Qle_bool (inject_Z a) (inject_Z b)) eqn:E; symmetry.
  - apply Qle_bool_iff in E. rewrite <- Zle_Qle in E. now apply Z.leb_le.
  - apply Z.leb_gt. destruct (Z_lt_le_dec b a) as [H|H]; [exact H|].
    rewrite Zle_Qle, <- Qle_bool_iff in H. congruence.
Qed.

Lemma clamp_shape (nts : Q -> string) (stn : string -> jsnum) (v : jsval) (x : jsnum) :
  Assess.clamp nts stn v = Ok x ->
  (Assess.to_number nts stn v = Ok NNaN /\ x = NNaN) \/
  (Assess.to_number nts stn v <> Ok NNaN /\
   exists k, x = NFin (inject_Z k) /\ (1 <= k <= 9)%Z).
Proof.
  unfold Assess.clamp. destruct (Assess.to_number nts stn v) as [n|m]; [|discriminate].
  simpl. intros [= <-]. destruct n as [q|[]|].
  - right. split; [discriminate|]. simpl.
    change 9%Q with (inject_Z 9). change 1%Q with (inject_Z 1).
    rewrite Qle_bool_Z.
    destruct (9 <=? js_round q)%Z eqn:E1; rewrite Qle_bool_Z.
    + exists 9%Z. split; [reflexivity|lia].
    + destruct (js_round q <=? 1)%Z eqn:E2.
      * exists 1%Z. split; [reflexivity|lia].
      * exists (js_round q). split; [reflexivity|]. apply Z.leb_gt in E1, E2. lia.
  - right. split; [discriminate|]. exists 1%Z. split; [reflexivity|lia].
  - right. split; [discriminate|]. exists 9%Z. split; [reflexivity|lia].
  - left. split; reflexivity.
Qed.

(** [clamp] of the assessment module turns what [ToNumber] reads as NaN
    (a missing score, [undefined], a non-numeric string) into NaN; any
    other input, infinities included, becomes an integer from 1 to 9. *)
Theorem clamp_nan_or_1to9 (nts : Q -> string) (stn : string -> jsnum) (v : jsval)
    (x : jsnum) :
  Assess.clamp nts stn v = Ok x ->
  (Assess.to_number nts stn v = Ok NNaN -> x = NNaN) /\
  (Assess.to_number nts stn v <> Ok NNaN ->
     exists k, x = NFin (inject_Z k) /\ (1 <= k <= 9)%Z).
Proof.
  intros H. apply clamp_shape in H as [[H1 H2]|[H1 H2]].
  - split; [intros _; exact H2|intros H; contradiction].
  - split; [intros H; contradiction|intros _; exact H2].
Qed.

Lemma clamp_nan_or_1to9_witness :
  Assess.clamp (fun _ => "") (fun _ => NNaN) JUndef = Ok NNaN /\
  (Assess.to_number (fun _ => "") (fun _ => NNaN) JUndef = Ok NNaN -> NNaN = NNaN) /\
  (Assess.to_number (fun _ => "") (fun _ => NNaN) JUndef <> Ok NNaN ->
     exists k, NNaN = NFin (inject_Z k) /\ (1 <= k <= 9)%Z).
Proof.
  assert (H : Assess.clamp (fun _ => "") (fun _ => NNaN) JUndef = Ok NNaN) by reflexivity.
  split; [exact H|].
  exact (clamp_nan_or_1to9 (fun _ => "") (fun _ => NNaN) JUndef NNaN H).
Defined.

Lemma fold_dadd_nan (l : list Assess.scored_skill) :
  fold_left (fun a b => dadd a (Assess.score b)) l NNaN = NNaN.
Proof. induction l; simpl; auto. Qed.

(** The running sum of integer scores from 1 to 9 stays an exact
    double below [2^53]. *)
Lemma fold_dadd_sum (l : list Assess.scored_skill) (acc : Q) (a : Z) :
  Forall (fun s => score_shape (Assess.score s)) l ->
  (acc == inject_Z a)%Q -> (0 <= a)%Z ->
  (a + 9 * Z.of_nat (List.length l) <= 2 ^ 53)%Z ->
  (Exists (fun s => Assess.score s = NNaN) l ->
     fold_left (fun a b => dadd a (Assess.score b)) l (NFin acc) = NNaN) /\
  (~ Exists (fun s => Assess.score s = NNaN) l ->
     exists t s, fold_left (fun a b => dadd a (Assess.score b)) l (NFin acc) = NFin t /\
       (t == inject_Z s)%Q /\
       (a + Z.of_nat (List.length l) <= s <= a + 9 * Z.of_nat (List.length l))%Z).
Proof.
  intros Hl. revert acc a. induction Hl as [|s l Hs Hl IH]; intros acc a Hacc Ha Hbound.
  - split; [intros He; inversion He|]. intros _. exists acc, a. simpl.
    split; [reflexivity|]. split; [exact Hacc|lia].
  - cbn [fold_left List.length] in *. rewrite Nat2Z.inj_succ in *.
    destruct Hs as [Hn|[k [Hk Hb]]].
    + rewrite Hn. change (dadd (NFin acc) NNaN) with NNaN.
      split; [intros _; apply fold_dadd_nan|].
      intros He. exfalso. apply He. now constructor.
    + rewrite Hk, dadd_fin.
      rewrite (fl_Qeq (acc + inject_Z k) (inject_Z (a + k)))
        by (rewrite inject_Z_plus, Hacc; reflexivity).
      destruct (fl_int (a + k)) as [r [Hr Hrq]]; [lia|]. rewrite Hr.
      destruct (IH r (a + k)%Z Hrq ltac:(lia) ltac:(lia)) as [IH1 IH2]. split.
      * intros He. inversion He as [? ? Hs'|? ? He']; subst.
        -- rewrite Hk in Hs'. discriminate.
        -- now apply IH1.
      * intros He. destruct IH2 as [t [z [Ht [Htz Hz]]]]; [intros He'; apply He; now right|].
        exists t, z. split; [exact Ht|]. split; [exact Htz|]. lia.
Qed.

(** [scoreTo100] of a double in [1,9] is an integer in [0,100]. *)
Lemma scoreTo100_range (q : Q) :
  (1 <= q <= 9)%Q ->
  exists k, Assess.scoreTo100 (NFin q) = NFin (inject_Z k) /\ (0 <= k <= 100)%Z.
Proof.
  intros Hq. unfold Assess.scoreTo100, dsub. cbn [dneg]. rewrite dadd_fin.
  destruct (fl_between 0 8 (q + - (1)) is_double_0 is_double_8) as [w [-> Hw]]; [lra|].
  rewrite ddiv_pos by lra.
  assert (E : (w / 8 == w * (1 # 8))%Q) by reflexivity.
  destruct (fl_between 0 1 (w / 8) is_double_0 is_double_1) as [x [-> Hx]];
    [rewrite E; lra|].
  rewrite dmul_fin.
  destruct (fl_between 0 100 (x * 100) is_double_0 is_double_100) as [y [-> Hy]]; [lra|].
  exists (js_round y). split; [reflexivity|]. apply js_round_range. exact Hy.
Qed.

Lemma combine_range (x y : Z) :
  (0 <= x <= 100)%Z -> (0 <= y <= 100)%Z ->
  exists k, math_round (dadd (dmul (NFin (inject_Z x)) (NFin d0_7))
                             (dmul (NFin (inject_Z y)) (NFin d0_3)))
            = NFin (inject_Z k) /\ (0 <= k <= 100)%Z.
Proof.
  intros Hx Hy. rewrite !dmul_fin.
  rewrite (fl_Qeq (inject_Z x * d0_7) (d0_7 * inject_Z x)) by apply Qmult_comm.
  rewrite (fl_Qeq (inject_Z y * d0_3) (d0_3 * inject_Z y)) by apply Qmult_comm.
  destruct (scale_0_7_range _ (Z_0_100_Q _ Hx)) as [a [-> Ha]].
  destruct (scale_0_3_range _ (Z_0_100_Q _ Hy)) as [b [-> Hb]].
  rewrite dadd_fin. apply round_sum_range; assumption.
Qed.

(** In the report of [runAssessment], every skill score and the exercise
    score are NaN or an integer from 1 to 9, and the overall score is NaN
    exactly when the assessor's [skill_scores] array is empty, one of its
    scores is NaN or the exercise score is NaN; otherwise it is an integer
    from 0 to 100.  A JS array has fewer than [2^32] elements. *)
Theorem runAssessment_overall_score (nts : Q -> string) (stn : string -> jsnum)
    (candidateName assessment : jsval) (rep : Assess.report) :
  Assess.runAssessment_body nts stn candidateName assessment = Ok rep ->
  (Z.of_nat (List.length (Assess.skill_scores rep)) < 2 ^ 32)%Z ->
  Forall (fun s => score_shape (Assess.score s)) (Assess.skill_scores rep) /\
  score_shape (Assess.exercise_score (Assess.exercise rep)) /\
  (Assess.overall_score rep = NNaN <->
     Assess.skill_scores rep = [] \/
     Exists (fun s => Assess.score s = NNaN) (Assess.skill_scores rep) \/
     Assess.exercise_score (Assess.exercise rep) = NNaN) /\
  (Assess.overall_score rep <> NNaN ->
     exists k, Assess.overall_score rep = NFin (inject_Z k) /\ (0 <= k <= 100)%Z).
Proof.
  unfold Assess.runAssessment_body. intros H Hlen.
  apply bindR_Ok in H as [ss [_ H]].
  apply bindR_Ok in H as [scs [Hsc H]].
  apply bindR_Ok in H as [ex [Hex H]].
  apply bindR_Ok in H as [exc [Hexc H]].
  apply bindR_Ok in H as [rc [_ H]].
  apply bindR_Ok in H as [ex' [Hex' H]].
  apply bindR_Ok in H as [exc' [Hexc' H]].
  apply bindR_Ok in H as [ev [_ H]].
  apply bindR_Ok in H as [summ [_ H]].
  injection H as <-.
  cbn [Assess.overall_score Assess.skill_scores Assess.exercise Assess.exercise_score] in *.
  rewrite Hex in Hex'. injection Hex' as <-. rewrite Hexc in Hexc'. injection Hexc' as <-.
  assert (Hs : Forall (fun s => score_shape (Assess.score s)) scs).
  { clear Hlen. destruct ss; try discriminate. apply mapR_Ok in Hsc.
    induction Hsc as [|s r l l' Hr _ IH]; constructor; [|exact IH].
    apply bindR_Ok in Hr as [v [_ Hr]]. apply bindR_Ok in Hr as [c [Hc Hr]].
    injection Hr as <-. simpl.
    apply clamp_shape in Hc as [[_ ->]|[_ Hk]]; [left; reflexivity|right; exact Hk]. }
  assert (He : score_shape exc).
  { apply clamp_shape in Hexc as [[_ ->]|[_ Hk]]; [left; reflexivity|right; exact Hk]. }
  split; [exact Hs|]. split; [exact He|].
  set (avg := ddiv (fold_left (fun a b => dadd a (Assess.score b)) scs (NFin 0))
                   (NFin (inject_Z (Z.of_nat (List.length scs))))).
  (* the skills part is NaN exactly in the first two cases *)
  assert (Havg : (scs = [] \/ Exists (fun s => Assess.score s = NNaN) scs) /\ avg = NNaN \/
                 (scs <> [] /\ ~ Exists (fun s => Assess.score s = NNaN) scs) /\
                 exists k, Assess.scoreTo100 avg = NFin (inject_Z k) /\ (0 <= k <= 100)%Z).
  { change (2 ^ 32)%Z with 4294967296%Z in Hlen.
    destruct (fold_dadd_sum scs 0 0 Hs (Qeq_refl 0) ltac:(lia)) as [F1 F2];
      [change (2 ^ 53)%Z with 9007199254740992%Z; lia|].
    destruct scs as [|s0 l0] eqn:Es.
    - left. split; [left; reflexivity|reflexivity].
    - assert (Hd : forall s : Assess.scored_skill,
                 {Assess.score s = NNaN} + {Assess.score s <> NNaN}).
      { intros s. destruct (Assess.score s); [right; discriminate|right; discriminate|left; reflexivity]. }
      destruct (List.Exists_dec (fun s => Assess.score s = NNaN) (s0 :: l0) Hd) as [Hx|Hx].
      + left. split; [right; exact Hx|]. unfold avg. rewrite (F1 Hx). reflexivity.
      + right. split; [split; [discriminate|exact Hx]|].
        destruct (F2 Hx) as [t [z [Ht [Htz Hz]]]]. unfold avg. rewrite Ht.
        set (n := List.length (s0 :: l0)) in *.
        assert (Hn0 : (1 <= n)%nat) by (unfold n; simpl; lia).
        assert (HN : (1 <= inject_Z (Z.of_nat n))%Q) by (unfold Qle; simpl; lia).
        assert (Hs1 : (inject_Z (Z.of_nat n) <= t)%Q) by (rewrite Htz, <- Zle_Qle; lia).
        assert (Hs2 : (t <= 9 * inject_Z (Z.of_nat n))%Q).
        { rewrite Htz. change 9%Q with (inject_Z 9). rewrite <- inject_Z_mult, <- Zle_Qle. lia. }
        rewrite ddiv_pos by lra.
        destruct (fl_between 1 9 (t / inject_Z (Z.of_nat n)) is_double_1 is_double_9)
          as [v [Hv Hvr]].
        { set (N := inject_Z (Z.of_nat n)) in *.
          split; [apply Qle_shift_div_l | apply Qle_shift_div_r]; lra. }
        rewrite Hv. apply scoreTo100_range. exact Hvr. }
  destruct Havg as [[Hc Ha]|[[Hc1 Hc2] [k1 [Hk1 Hb1]]]].
  - rewrite Ha. change (Assess.scoreTo100 NNaN) with NNaN.
    change (dmul NNaN (NFin d0_7)) with NNaN. cbn [dadd math_round].
    split; [split; [intros _; tauto|reflexivity]|].
    intros Hn. contradiction.
  - rewrite Hk1. destruct He as [He|[k2 [Hk2 Hb2]]].
    + rewrite He. change (Assess.scoreTo100 NNaN) with NNaN.
      change (dmul NNaN (NFin d0_3)) with NNaN. rewrite dadd_nan_r. cbn [math_round].
      split; [split; [intros _; tauto|reflexivity]|].
      intros Hn. contradiction.
    + rewrite Hk2.
      destruct (scoreTo100_range (inject_Z k2)) as [k3 [Hk3 Hb3]];
        [split; unfold Qle; simpl; lia|].
      rewrite Hk3. destruct (combine_range k1 k3 Hb1 Hb3) as [k [Hk Hb]].
      rewrite Hk. split; [|intros _; exists k; split; [reflexivity|exact Hb]].
      split; [discriminate|]. intros [Hx|[Hx|Hx]]; [contradiction|contradiction|discriminate].
Qed.

Lemma runAssessment_overall_score_witness :
  let a := JObj [("skill_scores", JArr [JObj [("score_1_to_9", JNum (NFin 7))];
                                        JObj [("score_1_to_9", JNum (NFin 12))]]);
                 ("exercise_score_1_to_9", JNum (NFin 6))] in
  exists rep,
    Assess.runAssessment_body (fun _ => "") (fun _ => NNaN) (JStr "Ada") a = Ok rep /\
    (Z.of_nat (List.length (Assess.skill_scores rep)) < 2 ^ 32)%Z /\
    Forall (fun s => score_shape (Assess.score s)) (Assess.skill_scores rep) /\
    score_shape (Assess.exercise_score (Assess.exercise rep)) /\
    (Assess.overall_score rep = NNaN <->
       Assess.skill_scores rep = [] \/
       Exists (fun s => Assess.score s = NNaN) (Assess.skill_scores rep) \/
       Assess.exercise_score (Assess.exercise rep) = NNaN) /\
    (Assess.overall_score rep <> NNaN ->
       exists k, Assess.overall_score rep = NFin (inject_Z k) /\ (0 <= k <= 100)%Z).
Proof.
  intros a.
  destruct (Assess.runAssessment_body (fun _ => "") (fun _ => NNaN) (JStr "Ada") a)
    as [rep|e] eqn:E; [|vm_compute in E; discriminate E].
  assert (Hl : (Z.of_nat (List.length (Assess.skill_scores rep)) < 2 ^ 32)%Z).
  { pose proof E as E'. vm_compute in E'. injection E' as E''. rewrite <- E''.
    vm_compute. reflexivity. }
  exists rep. split; [reflexivity|]. split; [exact Hl|].
  exact (runAssessment_overall_score (fun _ => "") (fun _ => NNaN) (JStr "Ada") a rep E Hl).
Defined.
